(** * free-proxy-scraper: the validation pipeline of [free-proxy-scraper.py]

    The script fetches a table of candidate proxies, probes every candidate
    through a thread pool, overwrites its list with the probe results, sorts
    the resulting frame on the status column and writes it to a spreadsheet.

    The embedding follows the script function by function.  Everything the
    script takes from outside (the network, the scheduler of the thread pool,
    the clock, the sorting kernel behind [sort_values]) is an explicit
    argument. *)

From Stdlib Require Import ZArith String Ascii.
From stdpp Require Import base list strings relations sorting.


(** ** Exceptions and results *)

(** The exception classes the script can meet.  The first group are
    [requests.exceptions.RequestException] and subclasses of it; the second
    group are built-in classes outside that hierarchy. *)
Inductive exn :=
  | RequestException
  | Timeout
  | ConnectionError
  | ProxyError
  | SSLError
  | AttributeError
  | IndexError
  | ValueError
  | TypeError
  | OtherException (name : string).

(** [isinstance(e, requests.exceptions.RequestException)] *)
Definition is_RequestException (e : exn) : bool :=
  match e with
  | RequestException | Timeout | ConnectionError | ProxyError | SSLError => true
  | AttributeError | IndexError | ValueError | TypeError | OtherException _ => false
  end.

(** A call either returns a value or raises. *)
Inductive result (A : Type) :=
  | Ok (a : A)
  | Raise (e : exn).
Arguments Ok {A} a.
Arguments Raise {A} e.

#[global] Instance result_ret : MRet result := fun A a => Ok a.

#[global] Instance result_bind : MBind result := fun A B k r =>
  match r with
  | Ok a => k a
  | Raise e => Raise e
  end.

(** ** The Proxy named tuple *)

Record Proxy := mkProxy {
  ip : string;
  port : string;
  country : string;
  anonymity : string;
  https : string;
  last_checked : string
}.

(** [Proxy._fields] *)
Definition Proxy_fields : list string :=
  ["ip"; "port"; "country"; "anonymity"; "https"; "last_checked"].

(** The tuple of the six field values, in declaration order. *)
Definition Proxy_astuple (p : Proxy) : list string :=
  [ip p; port p; country p; anonymity p; https p; last_checked p].

(** ** The network *)

(** The arguments of one [requests.get] call. *)
Record request := mkRequest {
  url : string;
  https_proxy : option string;   (* proxies={"https": ...} *)
  timeout : option Z
}.

(** A fetched page, reduced to what the script reads from it: the rows of the
    table [soup.find("table", ...)] finds, each row being the texts of its
    [td] cells; [None] when the page has no such table. *)
Definition table := list (list string).

Record response := mkResponse {
  status_code : Z;
  content : option table
}.

(** What one [requests.get] call does: return a response or raise. *)
Definition network := request -> result response.

(** ** timing *)

(** The decorator returns what the wrapped function returns and lets what it
    raises pass; the line it prints is left out. *)
Definition timing {A B} (f : A -> result B) : A -> result B :=
  fun a => result ← f a; Ok result.

(** ** check_proxy *)

Definition probe_request (proxy : Proxy) : request :=
  {| url := "https://www.google.com";
     https_proxy := Some (ip proxy +:+ ":" +:+ port proxy);
     timeout := Some 5%Z |}.

Definition check_proxy_body (get : network) (proxy : Proxy) : result (Proxy * string) :=
  match get (probe_request proxy) with
  | Ok response =>
      if (status_code response =? 200)%Z
      then Ok (proxy, "working")
      else Ok (proxy, "not working")
  | Raise e =>
      if is_RequestException e
      then Ok (proxy, "not working")
      else Raise e
  end.

Definition check_proxy (get : network) : Proxy -> result (Proxy * string) :=
  timing (check_proxy_body get).

(** ** fetch_proxies *)

Definition fetch_request : request :=
  {| url := "https://free-proxy-list.net/"; https_proxy := None; timeout := None |}.

(** [cols[i].text]: indexing past the end raises IndexError. *)
Definition col_text (cols : list string) (i : nat) : result string :=
  match cols !! i with
  | Some t => Ok t
  | None => Raise IndexError
  end.

Definition parse_row (cols : list string) : result Proxy :=
  c0 ← col_text cols 0;
  c1 ← col_text cols 1;
  c3 ← col_text cols 3;
  c4 ← col_text cols 4;
  c6 ← col_text cols 6;
  c7 ← col_text cols 7;
  Ok {| ip := c0; port := c1; country := c3; anonymity := c4;
        https := c6; last_checked := c7 |}.

(** The loop over the rows: stops at the first row that raises. *)
Fixpoint parse_rows (rows : table) : result (list Proxy) :=
  match rows with
  | [] => Ok []
  | cols :: rest =>
      proxy ← parse_row cols;
      proxies ← parse_rows rest;
      Ok (proxy :: proxies)
  end.

(** [soup.find] returns None when the table is missing, and
    [None.find_all] raises AttributeError. *)
Definition fetch_proxies (get : network) : result (list Proxy) :=
  response ← get fetch_request;
  match content response with
  | None => Raise AttributeError
  | Some tbl => parse_rows (drop 1 tbl)
  end.

(** ** The dispatch loop of main

    [executor.map(check_proxy, proxies)] submits one call per element of
    [proxies] before it hands out the first result, keeps the futures in
    submission order, and yields their results in that order, waiting for
    each.  The pool runs at most [max_workers] calls at a time and takes the
    submitted calls in submission order.  The calls complete in an order the
    scheduler decides: the loop is a transition system whose steps are the
    moves of the workers and the iterations of the [for] loop. *)

Definition max_workers : nat := 100.

(** The state of one future of [executor.map]. *)
Inductive future :=
  | Pending (proxy : Proxy)                  (* submitted, waiting for a worker *)
  | Running (proxy : Proxy)                  (* a worker is inside check_proxy *)
  | Finished (r : result (Proxy * string))   (* check_proxy returned or raised *)
  | Cancelled.

(** An element of the list [proxies]: the loop overwrites the Proxy at index
    [i] with the pair [(proxy, status)]. *)
Inductive cell :=
  | Raw (proxy : Proxy)
  | Checked (proxy : Proxy) (status : string).

Record state := mkState {
  fs : list future;       (* the futures, in submission order *)
  proxies : list cell;    (* the list the loop writes into *)
  loop_i : nat;           (* the index the loop waits for *)
  raised : option exn;    (* the exception that left the loop, if any *)
  sent : list request     (* the probe requests issued so far *)
}.

Definition init (input : list Proxy) : state :=
  {| fs := Pending <$> input;
     proxies := Raw <$> input;
     loop_i := 0;
     raised := None;
     sent := [] |}.

(** The number of calls inside check_proxy. *)
Fixpoint in_flight (l : list future) : nat :=
  match l with
  | [] => 0
  | Running _ :: rest => S (in_flight rest)
  | _ :: rest => in_flight rest
  end.

(** A worker takes the oldest waiting call. *)
Fixpoint start_first (l : list future) : option (Proxy * list future) :=
  match l with
  | [] => None
  | Pending p :: rest => Some (p, Running p :: rest)
  | f :: rest =>
      match start_first rest with
      | Some (p, rest') => Some (p, f :: rest')
      | None => None
      end
  end.

(** [future.cancel()]: only a call that has not started is cancelled. *)
Definition cancel (f : future) : future :=
  match f with
  | Pending _ => Cancelled
  | _ => f
  end.

Inductive action :=
  | Start             (* a free worker takes the oldest waiting call *)
  | Finish (i : nat)  (* the call of future [i] returns or raises *)
  | Next.             (* the for loop receives the result it waits for *)

(** One move; [None] when the move is not possible in [s].  [net i] is the
    network as the call for element [i] meets it. *)
Definition step (net : nat -> network) (a : action) (s : state) : option state :=
  match a with
  | Start =>
      if decide (in_flight (fs s) < max_workers) then
        match start_first (fs s) with
        | Some (p, fs') =>
            Some {| fs := fs'; proxies := proxies s; loop_i := loop_i s;
                    raised := raised s; sent := sent s ++ [probe_request p] |}
        | None => None
        end
      else None
  | Finish i =>
      match fs s !! i with
      | Some (Running p) =>
          Some {| fs := <[i := Finished (check_proxy (net i) p)]> (fs s);
                  proxies := proxies s; loop_i := loop_i s;
                  raised := raised s; sent := sent s |}
      | _ => None
      end
  | Next =>
      match raised s, fs s !! loop_i s with
      | None, Some (Finished (Ok (proxy, status))) =>
          (* proxies[i] = (proxy, status) *)
          Some {| fs := fs s;
                  proxies := <[loop_i s := Checked proxy status]> (proxies s);
                  loop_i := S (loop_i s);
                  raised := None; sent := sent s |}
      | None, Some (Finished (Raise e)) =>
          (* the result iterator re-raises and cancels what has not started *)
          Some {| fs := cancel <$> fs s; proxies := proxies s;
                  loop_i := loop_i s; raised := Some e; sent := sent s |}
      | _, _ => None
      end
  end.

Definition steps (net : nat -> network) (s s' : state) : Prop :=
  exists a, step net a s = Some s'.

(** The states a run of the loop over [input] can be in. *)
Definition reachable (net : nat -> network) (input : list Proxy) (s : state) : Prop :=
  rtc (steps net) (init input) s.

(** Nothing can move: the loop is over and the pool is idle. *)
Definition terminal (net : nat -> network) (s : state) : Prop :=
  forall a, step net a s = None.

(** The moves possible in [s]. *)
Definition candidates (s : state) : list action :=
  Start :: Next :: (Finish <$> seq 0 (length (fs s))).

Definition enabled (net : nat -> network) (s : state) : list action :=
  filter (fun a => is_Some (step net a s)) (candidates s).

(** A run under a scheduler: [pick n] chooses among the possible moves when
    [n] more moves are allowed. *)
Fixpoint run (net : nat -> network) (pick : nat -> nat) (fuel : nat) (s : state) : state :=
  match fuel with
  | 0 => s
  | S n =>
      let en := enabled net s in
      match en !! (pick n `mod` length en) with
      | Some a =>
          match step net a s with
          | Some s' => run net pick n s'
          | None => s
          end
      | None => s
      end
  end.

(** Every call moves twice and the loop iterates once per element. *)
Definition dispatch (net : nat -> network) (pick : nat -> nat) (input : list Proxy) : state :=
  run net pick (3 * length input) (init input).

(** ** Unpacking the results: [proxies, statuses = zip( *proxies )] *)

(** What the elements of the list are made of: a Proxy is a tuple of six
    strings, a checked element is the pair of a Proxy and a string. *)
Inductive pyval :=
  | PStr (s : string)
  | PProxy (p : Proxy).

Definition cell_items (c : cell) : list pyval :=
  match c with
  | Raw p => PStr <$> Proxy_astuple p
  | Checked p status => [PProxy p; PStr status]
  end.

(** [zip( *l )]: the j-th tuple collects the j-th item of every element, up to
    the shortest element; no element, no tuple. *)
Definition zip_star {A} (l : list (list A)) : list (list A) :=
  match l with
  | [] => []
  | x :: rest =>
      (fun j => omap (fun y => y !! j) l)
        <$> seq 0 (foldr Nat.min (length x) (length <$> rest))
  end.

(** Assigning to two names needs exactly two values. *)
Definition unpack2 {A} (l : list A) : result (A * A) :=
  match l with
  | [a; b] => Ok (a, b)
  | _ => Raise ValueError
  end.

(** ** The frame and its export *)

Record DataFrame := mkFrame {
  columns : list string;
  rows : list (list string)
}.

Fixpoint as_proxies (l : list pyval) : option (list Proxy) :=
  match l with
  | [] => Some []
  | PProxy p :: rest => cons p <$> as_proxies rest
  | PStr _ :: _ => None
  end.

Fixpoint as_strings (l : list pyval) : option (list string) :=
  match l with
  | [] => Some []
  | PStr s :: rest => cons s <$> as_strings rest
  | PProxy _ :: _ => None
  end.

(** [pd.DataFrame(proxies)] on a tuple of named tuples: one column per field,
    one row per record.  Other shapes do not occur in the script (main hands
    over the records of a list of checked pairs) and are answered with
    TypeError here. *)
Definition new_frame (records : list pyval) : result DataFrame :=
  match as_proxies records with
  | Some ps =>
      Ok {| columns := match ps with [] => [] | _ => Proxy_fields end;
            rows := Proxy_astuple <$> ps |}
  | None => Raise TypeError
  end.

(** [df[name] = values]: a new last column; the lengths must agree. *)
Definition set_column (name : string) (values : list pyval) (df : DataFrame)
  : result DataFrame :=
  match as_strings values with
  | Some vs =>
      if decide (length vs = length (rows df)) then
        Ok {| columns := columns df ++ [name];
              rows := zip_with (fun r v => r ++ [v]) (rows df) vs |}
      else Raise ValueError
  | None => Raise TypeError
  end.

(** The values of column [j], row by row. *)
Definition column_values (j : nat) (df : DataFrame) : list string :=
  (fun r => default "" (r !! j)) <$> rows df.

(** [l.take(ix)]: the elements of [l] at the positions [ix], in that order. *)
Definition take_rows {A} (ix : list nat) (l : list A) : list A :=
  omap (fun i => l !! i) ix.

(** [df.sort_values(by=name, inplace=True, ascending=False)].  The script
    passes no [kind], so pandas sorts the column with its default kernel:
    [indexer] is that kernel, from the column to the order of the rows. *)
Definition sort_values (indexer : list string -> list nat) (name : string)
    (df : DataFrame) : result DataFrame :=
  match fst <$> list_find (fun c => c = name) (columns df) with
  | Some j =>
      Ok {| columns := columns df;
            rows := take_rows (indexer (column_values j df)) (rows df) |}
  | None => Raise (OtherException "KeyError")
  end.

(** What [to_excel(name, index=False)] writes: a header line with the column
    names, then the rows. *)
Record artifact := mkArtifact {
  file_name : string;
  header : list string;
  body : list (list string)
}.

Definition to_excel (df : DataFrame) (name : string) : artifact :=
  {| file_name := name; header := columns df; body := rows df |}.

(** [time.localtime()], the fields the format uses. *)
Record struct_tm := mkTm {
  tm_year : nat;
  tm_mon : nat;
  tm_mday : nat;
  tm_hour : nat;
  tm_min : nat
}.

Definition digit (n : nat) : string :=
  String (ascii_of_nat (48 + n `mod` 10)) "".

(** Decimal digits of [n], no padding (%Y). *)
Fixpoint decimal_go (fuel n : nat) : string :=
  match fuel with
  | 0 => ""
  | S fuel' =>
      (if decide (n < 10) then "" else decimal_go fuel' (n `div` 10)) +:+ digit n
  end.

Definition decimal (n : nat) : string := decimal_go (S n) n.

(** Two digits, zero padded (%m, %d, %H, %M). *)
Definition pad2 (n : nat) : string := digit (n `div` 10) +:+ digit n.

(** [time.strftime("%Y_%m_%d_%H%M", time.localtime())] *)
Definition datetime_string (now : struct_tm) : string :=
  decimal (tm_year now) +:+ "_" +:+ pad2 (tm_mon now) +:+ "_" +:+
  pad2 (tm_mday now) +:+ "_" +:+ pad2 (tm_hour now) +:+ pad2 (tm_min now).

Definition export_sorted_df_body (indexer : list string -> list nat)
    (now : struct_tm) (args : DataFrame * string) : result artifact :=
  let '(df, file_name) := args in
  df ← sort_values indexer "status" df;
  Ok (to_excel df (file_name +:+ "_" +:+ datetime_string now +:+ ".xlsx")).

Definition export_sorted_df (indexer : list string -> list nat) (now : struct_tm)
    (df : DataFrame) (file_name : string) : result artifact :=
  timing (export_sorted_df_body indexer now) (df, file_name).

(** ** main *)

(** Everything a run takes from outside. *)
Record world := mkWorld {
  page_net : network;               (* the network as fetch_proxies meets it *)
  probe_net : nat -> network;       (* the network as the i-th probe meets it *)
  pick : nat -> nat;                (* the scheduler of the pool *)
  indexer : list string -> list nat;  (* the sorting kernel of pandas *)
  now : struct_tm                   (* the local time at the export *)
}.

(** What a run leaves behind. *)
Record outcome := mkOutcome {
  returned : result unit;        (* main returned, or the exception that ended it *)
  probed : list request;         (* the probe requests that were issued *)
  written : option artifact      (* the file that was written *)
}.

Definition export_results (w : world) (cells : list cell) : result artifact :=
  '(records, statuses) ← unpack2 (zip_star (cell_items <$> cells));
  df ← new_frame records;
  df ← set_column "status" statuses df;
  export_sorted_df (indexer w) (now w) df "freeproxylist".

Definition main_body (w : world) : outcome :=
  match fetch_proxies (page_net w) with
  | Raise e => {| returned := Raise e; probed := []; written := None |}
  | Ok input =>
      let s := dispatch (probe_net w) (pick w) input in
      match raised s with
      | Some e => {| returned := Raise e; probed := sent s; written := None |}
      | None =>
          match export_results w (proxies s) with
          | Raise e => {| returned := Raise e; probed := sent s; written := None |}
          | Ok a => {| returned := Ok (); probed := sent s; written := Some a |}
          end
      end
  end.

(** [main] is [main_body] under the timing decorator, which changes nothing
    of what a run leaves behind. *)
Definition main (w : world) : outcome := main_body w.

(** The exit status of the interpreter: 0 when main returns, 1 when an
    exception reaches the top level. *)
Definition exit_status (o : outcome) : Z :=
  match returned o with
  | Ok _ => 0
  | Raise _ => 1
  end.

(** ** Sorting kernels

    pandas documents its default kernel (quicksort) as a sort that is not
    stable: the order it gives to rows with equal keys is not specified.  What
    every kernel guarantees for a descending sort is captured by
    [sorts_descending]; two kernels that meet it are defined here, one that
    keeps ties in their order and one that does not. *)

(** [a] may stand before [b] in a descending column: [b <= a] as Python
    compares strings. *)
Definition descending : relation string :=
  fun a b => String.leb b a = true.

(** [ix] lists every position of [keys] once, and the keys read in that order
    never increase. *)
Definition sorts_descending (keys : list string) (ix : list nat) : Prop :=
  ix ≡ₚ seq 0 (length keys) /\
  Sorted descending (take_rows ix keys).

Definition key_at (keys : list string) (i : nat) : string :=
  default "" (keys !! i).

(** Insert position [i] in front of the first position [j] of [ix] with
    [before (key i) (key j)]. *)
Fixpoint insert_by (before : string -> string -> bool) (keys : list string)
    (i : nat) (ix : list nat) : list nat :=
  match ix with
  | [] => [i]
  | j :: rest =>
      if before (key_at keys i) (key_at keys j)
      then i :: ix
      else j :: insert_by before keys i rest
  end.

Definition insertion_indexer (before : string -> string -> bool)
    (keys : list string) : list nat :=
  foldr (insert_by before keys) [] (seq 0 (length keys)).

(** Ties keep their order: a position goes in front of the later positions
    whose key is not larger. *)
Definition stable_indexer : list string -> list nat :=
  insertion_indexer (fun a b => String.leb b a).

(** Ties end up reversed: a position goes behind the later positions with the
    same key. *)
Definition reversing_indexer : list string -> list nat :=
  insertion_indexer (fun a b => String.ltb b a).

(** ** Sample records and worlds, used to run the definitions *)

Definition proxy_a : Proxy :=
  mkProxy "10.0.0.1" "80" "United States" "anonymous" "yes" "1 min ago".
Definition proxy_b : Proxy :=
  mkProxy "10.0.0.2" "8080" "Germany" "elite proxy" "no" "2 mins ago".
Definition proxy_c : Proxy :=
  mkProxy "10.0.0.3" "3128" "France" "transparent" "yes" "3 mins ago".

(** A row of the source table: eight cells, of which the script reads six. *)
Definition page_row (p : Proxy) : list string :=
  [ip p; port p; "XX"; country p; anonymity p; "no"; https p; last_checked p].

Definition page_header : list string :=
  ["IP Address"; "Port"; "Code"; "Country"; "Anonymity"; "Google"; "Https";
   "Last Checked"].

Definition serve (tbl : option table) : network :=
  fun _ => Ok {| status_code := 200; content := tbl |}.

(** The probe of the first record times out, the second answers 200, the
    others answer 404. *)
Definition sample_probes : nat -> network :=
  fun i _ =>
    match i with
    | 0 => Raise Timeout
    | 1 => Ok {| status_code := 200; content := None |}
    | _ => Ok {| status_code := 404; content := None |}
    end.

(** Every probe fails inside the client with an exception that is not a
    RequestException. *)
Definition broken_probes : nat -> network :=
  fun _ _ => Raise ValueError.

Definition sample_time : struct_tm :=
  {| tm_year := 2022; tm_mon := 9; tm_mday := 5; tm_hour := 7; tm_min := 3 |}.

Definition sample_world : world :=
  {| page_net := serve (Some [page_header; page_row proxy_a; page_row proxy_b;
                              page_row proxy_c]);
     probe_net := sample_probes;
     pick := fun n => n;
     indexer := stable_indexer;
     now := sample_time |}.

(** The source table has its header line and no data line. *)
Definition empty_world : world :=
  {| page_net := serve (Some [page_header]);
     probe_net := sample_probes;
     pick := fun n => n;
     indexer := stable_indexer;
     now := sample_time |}.

(** The source page has no table. *)
Definition no_table_world : world :=
  {| page_net := serve None;
     probe_net := sample_probes;
     pick := fun n => n;
     indexer := stable_indexer;
     now := sample_time |}.

(** ** What holds in every state of the loop *)

(** Future [i] belongs to element [i] of the input, [p]: it still carries
    [p], or it holds what check_proxy gave for [p]; the results the loop has
    passed were pairs; a call is cancelled only after the loop was left. *)
Definition future_ok (net : nat -> network) (s : state) (i : nat) (p : Proxy)
    (f : future) : Prop :=
  match f with
  | Pending q | Running q => q = p /\ loop_i s <= i
  | Finished r =>
      r = check_proxy (net i) p /\
      (i < loop_i s -> exists status, r = Ok (p, status))
  | Cancelled => raised s <> None
  end.

(** Element [i] of the list is the input record until the loop has passed
    [i], and the pair check_proxy returned for it from then on. *)
Definition cell_ok (net : nat -> network) (s : state) (i : nat) (p : Proxy)
    (c : cell) : Prop :=
  match c with
  | Raw q => q = p /\ loop_i s <= i
  | Checked q status =>
      q = p /\ i < loop_i s /\ check_proxy (net i) p = Ok (p, status)
  end.

Record invariant (net : nat -> network) (input : list Proxy) (s : state) : Prop := {
  inv_fs_length : length (fs s) = length input;
  inv_proxies_length : length (proxies s) = length input;
  inv_loop_i : loop_i s <= length input;
  inv_in_flight : in_flight (fs s) <= max_workers;
  inv_future : forall i f, fs s !! i = Some f ->
    exists p, input !! i = Some p /\ future_ok net s i p f;
  inv_cell : forall i c, proxies s !! i = Some c ->
    exists p, input !! i = Some p /\ cell_ok net s i p c;
  inv_raised : forall e, raised s = Some e ->
    exists i p, input !! i = Some p /\ check_proxy (net i) p = Raise e
}.

(** The moves a state still has in it: two per waiting call, one per running
    call, one per iteration the loop has left. *)
Definition weight (f : future) : nat :=
  match f with
  | Pending _ => 2
  | Running _ => 1
  | _ => 0
  end.

Definition remaining (s : state) : nat :=
  sum_list (weight <$> fs s) +
  match raised s with
  | None => length (fs s) - loop_i s
  | Some _ => 0
  end.

(** No probe raises an exception that is not a RequestException. *)
Definition nonfatal (net : nat -> network) (input : list Proxy) : Prop :=
  forall i p e, input !! i = Some p ->
    net i (probe_request p) = Raise e -> is_RequestException e = true.

(** The loop was not left by an exception, the list has the length of the
    input, and its element [i] is the pair of input record [i] and the label
    check_proxy returned for it. *)
Definition results_in_order (net : nat -> network) (input : list Proxy)
    (s : state) : Prop :=
  raised s = None /\
  length (proxies s) = length input /\
  forall i p, input !! i = Some p ->
    exists status, proxies s !! i = Some (Checked p status) /\
                   check_proxy (net i) p = Ok (p, status).

(** The loop has received all its results. *)
Definition loop_finished (s : state) : Prop :=
  raised s = None /\ loop_i s = length (fs s).

(** ** The report of a list of results *)

(** A row of the frame: the six fields of the record, then the label. *)
Definition row_of (r : Proxy * string) : list string :=
  Proxy_astuple r.1 ++ [r.2].

(** The label of a row of the frame: the cell of column "status". *)
Definition status_cell (row : list string) : string :=
  default "" (row !! 6).

(** The frame main builds from the results of the dispatch. *)
Definition frame_of (results : list (Proxy * string)) : DataFrame :=
  {| columns := Proxy_fields ++ ["status"]; rows := row_of <$> results |}.

(** The file main writes for the results of the dispatch. *)
Definition report (w : world) (results : list (Proxy * string)) : artifact :=
  {| file_name := "freeproxylist_" +:+ datetime_string (now w) +:+ ".xlsx";
     header := Proxy_fields ++ ["status"];
     body := row_of <$> take_rows (indexer w results.*2) results |}.

(** The pair a checked element of the list stands for. *)
Definition cell_result (c : cell) : Proxy * string :=
  match c with
  | Raw p => (p, "")
  | Checked p status => (p, status)
  end.

(** The source page could not be fetched. *)
Definition unreachable (get : network) : Prop :=
  exists e, get fetch_request = Raise e.

(** The source page came, and the script cannot read its table: there is no
    table of the expected class, or a line after the header has fewer than the
    eight cells the script indexes. *)
Definition unparseable (get : network) : Prop :=
  exists r, get fetch_request = Ok r /\
    (content r = None \/
     exists tbl, content r = Some tbl /\
                 Exists (fun cols => length cols < 8) (drop 1 tbl)).

(** The fields of [time.localtime()] in their ranges, in a year of four
    digits. *)
Definition valid_tm (t : struct_tm) : Prop :=
  1000 <= tm_year t < 10 * 1000 /\ 1 <= tm_mon t <= 12 /\ 1 <= tm_mday t <= 31 /\
  tm_hour t <= 23 /\ tm_min t <= 59.

(** [s] is the time [t] written as YYYY_MM_DD_HHMM: four digits of the year,
    two of the month, two of the day, two of the hour and two of the minute,
    with underscores after the year, the month and the day. *)
Definition is_stamp (t : struct_tm) (s : string) : Prop :=
  exists y1 y2 y3 y4 m1 m2 d1 d2 h1 h2 n1 n2,
    Forall (fun d => d < 10) [y1; y2; y3; y4; m1; m2; d1; d2; h1; h2; n1; n2] /\
    s = digit y1 +:+ digit y2 +:+ digit y3 +:+ digit y4 +:+ "_" +:+
        digit m1 +:+ digit m2 +:+ "_" +:+ digit d1 +:+ digit d2 +:+ "_" +:+
        digit h1 +:+ digit h2 +:+ digit n1 +:+ digit n2 /\
    tm_year t = 1000 * y1 + 100 * y2 + 10 * y3 + y4 /\
    tm_mon t = 10 * m1 + m2 /\ tm_mday t = 10 * d1 + d2 /\
    tm_hour t = 10 * h1 + h2 /\ tm_min t = 10 * n1 + n2.

(** ** The order of the rows *)





(** The rows the Reporter writes for [results] under the kernel [ix]. *)
Definition sorted_results (ix : list string -> list nat)
    (results : list (Proxy * string)) : list (Proxy * string) :=
  take_rows (ix results.*2) results.

(** A frame that is already sorted, and the same results in another order. *)
Definition sorted_sample : list (Proxy * string) :=
  [(proxy_b, "working"); (proxy_a, "not working"); (proxy_c, "not working")].

Definition unsorted_sample : list (Proxy * string) :=
  [(proxy_a, "not working"); (proxy_b, "working"); (proxy_c, "not working")].

(** ** running_feedback and the console of the loop *)

(** The four characters of the string the generator yields from. *)
Definition glyphs : list ascii := ["|"; "/"; "-"; "\"]%char.

(** The state of the generator: what the current pass over the string has
    still to yield.  A fresh generator has not entered the loop. *)
Definition feedback := list ascii.

Definition running_feedback : feedback := [].

(** [next(feedback)]: the next character of the pass; when the pass is over
    the [while True] loop starts a new one. *)
Definition next_feedback (g : feedback) : ascii * feedback :=
  match g with
  | c :: rest => (c, rest)
  | [] => ("|"%char, ["/"; "-"; "\"]%char)
  end.

(** The generator after [n] calls of next. *)
Fixpoint advance (n : nat) (g : feedback) : feedback :=
  match n with
  | 0 => g
  | S n' => advance n' (snd (next_feedback g))
  end.

(** [f"\rChecking proxies... {c}"] *)
Definition checking_line (c : ascii) : string :=
  String (ascii_of_nat 13) "Checking proxies... " +:+ String c "".

(** What iteration [i] of the for loop prints: one line, and a second one
    when [i] is a multiple of 10. *)
Definition iteration_prints (i : nat) (g : feedback) : list string * feedback :=
  let '(c1, g1) := next_feedback g in
  if decide (i `mod` 10 = 0) then
    let '(c2, g2) := next_feedback g1 in
    ([checking_line c1; checking_line c2], g2)
  else ([checking_line c1], g1).

(** The lines printed by the first [n] iterations of the loop, and the
    generator they leave. *)
Fixpoint loop_console (n : nat) : list string * feedback :=
  match n with
  | 0 => ([], running_feedback)
  | S k =>
      let '(out, g) := loop_console k in
      let '(new, g') := iteration_prints k g in
      (out ++ new, g')
  end.

(** The number of calls of next in the first [n] iterations. *)
Definition ticks (n : nat) : nat := n + (n + 9) `div` 10.

(** ** Checking the records one after the other *)

(** The loop [for i, p in enumerate(proxies): proxies[i] = check_proxy(p)]
    without a pool: the list and the exception it ends with.  [i] is the
    index of the first record of [input]. *)
Fixpoint sequential (net : nat -> network) (i : nat) (input : list Proxy)
  : list cell * option exn :=
  match input with
  | [] => ([], None)
  | p :: rest =>
      match check_proxy (net i) p with
      | Ok (q, status) =>
          let '(cells, e) := sequential net (S i) rest in
          (Checked q status :: cells, e)
      | Raise e => (Raw p :: (Raw <$> rest), Some e)
      end
  end.

(** ** What holds of the requests issued *)

(** A worker has taken the call. *)
Definition is_started (f : future) : bool :=
  match f with
  | Running _ | Finished _ => true
  | Pending _ | Cancelled => false
  end.

(** The calls are started in input order and the log holds one request per
    started call; the exception that left the loop is the one of the record
    the loop was waiting for, and from then on no call waits. *)
Record log_invariant (net : nat -> network) (input : list Proxy) (s : state) : Prop := {
  log_started : exists k,
    k <= length input /\
    sent s = probe_request <$> take k input /\
    forall i f, fs s !! i = Some f -> (is_started f = true <-> i < k);
  log_raised : forall e, raised s = Some e ->
    (exists p, input !! loop_i s = Some p /\
               check_proxy (net (loop_i s)) p = Raise e) /\
    (forall i p, fs s !! i <> Some (Pending p))
}.

(** ** The record read from a line of the table *)

(** The cells of a line and the record made of them. *)
Definition reads (cols : list string) (p : Proxy) : Prop :=
  cols !! 0 = Some (ip p) /\ cols !! 1 = Some (port p) /\
  cols !! 3 = Some (country p) /\ cols !! 4 = Some (anonymity p) /\
  cols !! 6 = Some (https p) /\ cols !! 7 = Some (last_checked p).

(** * Properties *)

(** ** check_proxy *)

Lemma timing_id {A B} (f : A -> result B) (a : A) : timing f a = f a.
Proof. unfold timing. by destruct (f a). Qed.

Lemma check_proxy_unfold (get : network) (proxy : Proxy) :
  check_proxy get proxy =
  match get (probe_request proxy) with
  | Ok response =>
      Ok (proxy, if (status_code response =? 200)%Z then "working" else "not working")
  | Raise e =>
      if is_RequestException e then Ok (proxy, "not working") else Raise e
  end.
Proof.
  unfold check_proxy. rewrite timing_id. unfold check_proxy_body.
  destruct (get (probe_request proxy)) as [r|e]; [|done].
  by destruct (status_code r =? 200)%Z.
Qed.

(** What check_proxy returns, when it returns: the record it was given and
    one of the two labels. *)
Lemma check_proxy_Ok (get : network) (proxy q : Proxy) (status : string) :
  check_proxy get proxy = Ok (q, status) ->
  q = proxy /\ (status = "working" \/ status = "not working").
Proof.
  rewrite check_proxy_unfold.
  destruct (get (probe_request proxy)) as [r|e].
  - destruct (status_code r =? 200)%Z; intros [= <- <-]; auto.
  - destruct (is_RequestException e); [|done]. intros [= <- <-]; auto.
Qed.

(** What check_proxy raises, when it raises: the exception of the request,
    which is not a RequestException. *)
Lemma check_proxy_Raise (get : network) (proxy : Proxy) (e : exn) :
  check_proxy get proxy = Raise e ->
  get (probe_request proxy) = Raise e /\ is_RequestException e = false.
Proof.
  rewrite check_proxy_unfold.
  destruct (get (probe_request proxy)) as [r|e']; [done|].
  destruct (is_RequestException e') eqn:He; [done|]. by intros [= <-].
Qed.

(** C2: check_proxy returns the label "working" exactly when the request
    returns a response whose status code is 200; a response with any other
    code, and a request that raises a RequestException (a timeout, a
    connection error such as a DNS failure or a reset, a TLS error, a proxy
    error), give "not working". *)
Theorem check_proxy_working_iff (get : network) (proxy : Proxy) :
  ((exists q, check_proxy get proxy = Ok (q, "working")) <->
   (exists r, get (probe_request proxy) = Ok r /\ status_code r = 200%Z)) /\
  (forall r, get (probe_request proxy) = Ok r -> status_code r <> 200%Z ->
     check_proxy get proxy = Ok (proxy, "not working")) /\
  (forall e, get (probe_request proxy) = Raise e -> is_RequestException e = true ->
     check_proxy get proxy = Ok (proxy, "not working")) /\
  Forall (fun e => is_RequestException e = true)
    [Timeout; ConnectionError; SSLError; ProxyError; RequestException].
Proof.
  rewrite check_proxy_unfold. repeat split.
  - intros [q Hq]. destruct (get (probe_request proxy)) as [r|e].
    + exists r. split; [done|].
      destruct (status_code r =? 200)%Z eqn:Hc; [by apply Z.eqb_eq|done].
    + by destruct (is_RequestException e).
  - intros (r & -> & Hr). exists proxy. by rewrite Hr.
  - intros r -> Hr. by apply Z.eqb_neq in Hr as ->.
  - by intros e -> ->.
  - by repeat constructor.
Qed.

(** C10: when check_proxy returns a pair, its first component is the record
    it was given, field for field, and its second component is "working" or
    "not working"; it returns a pair unless the request raises an exception
    that is not a RequestException. *)
Theorem check_proxy_frame (get : network) (proxy : Proxy) :
  (forall r, check_proxy get proxy = Ok r ->
     r.1 = proxy /\
     (ip r.1 = ip proxy /\ port r.1 = port proxy /\ country r.1 = country proxy /\
      anonymity r.1 = anonymity proxy /\ https r.1 = https proxy /\
      last_checked r.1 = last_checked proxy) /\
     (r.2 = "working" \/ r.2 = "not working")) /\
  ((exists r, check_proxy get proxy = Ok r) <->
   (forall e, get (probe_request proxy) = Raise e -> is_RequestException e = true)).
Proof.
  split; [|split].
  - intros [q status] [-> Hs]%check_proxy_Ok. simpl. auto 10.
  - intros [r Hr] e He. rewrite check_proxy_unfold, He in Hr.
    by destruct (is_RequestException e).
  - intros H. rewrite check_proxy_unfold.
    destruct (get (probe_request proxy)) as [r|e]; [by eexists|].
    rewrite (H e eq_refl). by eexists.
Qed.

Lemma check_proxy_frame_witness :
  check_proxy (sample_probes 1) proxy_b = Ok (proxy_b, "working") /\
  (proxy_b, "working").1 = proxy_b.
Proof.
  split; [reflexivity|].
  apply (proj1 (check_proxy_frame (sample_probes 1) proxy_b) (proxy_b, "working")).
  reflexivity.
Defined.

(** ** The pool: counting and starting *)

Lemma in_flight_insert_running (l : list future) (i : nat) (p q : Proxy) :
  l !! i = Some (Pending p) ->
  in_flight (<[i := Running q]> l) = S (in_flight l).
Proof.
  revert i. induction l as [|f l IH]; intros [|i] H; simplify_eq/=; [done|].
  rewrite (IH _ H). by destruct f.
Qed.

Lemma in_flight_insert_finished (l : list future) (i : nat) (p : Proxy)
    (r : result (Proxy * string)) :
  l !! i = Some (Running p) ->
  S (in_flight (<[i := Finished r]> l)) = in_flight l.
Proof.
  revert i. induction l as [|f l IH]; intros [|i] H; simplify_eq/=; [done|].
  rewrite <- (IH _ H). by destruct f.
Qed.

Lemma in_flight_cancel (l : list future) :
  in_flight (cancel <$> l) = in_flight l.
Proof.
  induction l as [|f l IH]; [done|].
  rewrite fmap_cons. destruct f; simpl; by rewrite ?IH.
Qed.

Lemma in_flight_zero (l : list future) :
  (forall i p, l !! i <> Some (Running p)) -> in_flight l = 0.
Proof.
  induction l as [|f l IH]; intros H; [done|].
  destruct f; simpl; try (apply IH; intros i q; apply (H (S i) q)).
  by destruct (H 0 proxy).
Qed.

(** The call that starts is a waiting one, and the oldest of them. *)
Lemma start_first_Some (l l' : list future) (p : Proxy) :
  start_first l = Some (p, l') ->
  exists i, l !! i = Some (Pending p) /\ l' = <[i := Running p]> l /\
            forall j q, j < i -> l !! j <> Some (Pending q).
Proof.
  revert l'. induction l as [|f l IH]; intros l' H; [done|].
  destruct f; simpl in H;
    try (destruct (start_first l) as [[p' rest]|] eqn:E; [|done];
         injection H as <- <-;
         destruct (IH _ eq_refl) as (i & Hi & -> & Hlt);
         exists (S i); split_and!; [done|done|];
         intros [|j] q Hj; [done|]; apply Hlt; lia).
  injection H as <- <-. exists 0. split_and!; [done|done|]. intros; lia.
Qed.

Lemma start_first_None (l : list future) :
  start_first l = None -> forall i p, l !! i <> Some (Pending p).
Proof.
  induction l as [|f l IH]; intros H [|i] p; try done;
    destruct f; simpl in *; try done;
    destruct (start_first l) as [[]|]; try done; by apply IH.
Qed.

(** ** The moves, case by case *)

Lemma step_Start_inv (net : nat -> network) (s s' : state) :
  step net Start s = Some s' ->
  in_flight (fs s) < max_workers /\
  exists i p, fs s !! i = Some (Pending p) /\
    (forall j q, j < i -> fs s !! j <> Some (Pending q)) /\
    s' = {| fs := <[i := Running p]> (fs s); proxies := proxies s;
            loop_i := loop_i s; raised := raised s;
            sent := sent s ++ [probe_request p] |}.
Proof.
  unfold step. case_decide; [|done].
  destruct (start_first (fs s)) as [[p l']|] eqn:E; [|done].
  intros [= <-]. split; [done|].
  apply start_first_Some in E as (i & Hi & -> & Hlt). by exists i, p.
Qed.

Lemma step_Finish_inv (net : nat -> network) (i : nat) (s s' : state) :
  step net (Finish i) s = Some s' ->
  exists p, fs s !! i = Some (Running p) /\
    s' = {| fs := <[i := Finished (check_proxy (net i) p)]> (fs s);
            proxies := proxies s; loop_i := loop_i s;
            raised := raised s; sent := sent s |}.
Proof.
  unfold step. destruct (fs s !! i) as [[]|] eqn:E; try done.
  intros [= <-]. by eexists.
Qed.

Lemma step_Next_inv (net : nat -> network) (s s' : state) :
  step net Next s = Some s' ->
  raised s = None /\
  ((exists proxy status,
      fs s !! loop_i s = Some (Finished (Ok (proxy, status))) /\
      s' = {| fs := fs s;
              proxies := <[loop_i s := Checked proxy status]> (proxies s);
              loop_i := S (loop_i s); raised := None; sent := sent s |}) \/
   (exists e,
      fs s !! loop_i s = Some (Finished (Raise e)) /\
      s' = {| fs := cancel <$> fs s; proxies := proxies s;
              loop_i := loop_i s; raised := Some e; sent := sent s |})).
Proof.
  unfold step. destruct (raised s); [done|].
  destruct (fs s !! loop_i s) as [[| |[[proxy status]|e]|]|] eqn:E; try done;
    intros [= <-]; (split; [done|]); [left|right]; eauto.
Qed.

(** ** The invariant of the loop *)

Lemma in_flight_pending (input : list Proxy) : in_flight (Pending <$> input) = 0.
Proof. induction input; [done|]. by rewrite fmap_cons. Qed.

Lemma invariant_init (net : nat -> network) (input : list Proxy) :
  invariant net input (init input).
Proof.
  split; simpl.
  - by rewrite length_fmap.
  - by rewrite length_fmap.
  - lia.
  - rewrite in_flight_pending. lia.
  - intros i f. rewrite list_lookup_fmap.
    destruct (input !! i) as [p|]; [|done]. intros [= <-].
    exists p. simpl. split; [done|]. split; [done|lia].
  - intros i c. rewrite list_lookup_fmap.
    destruct (input !! i) as [p|]; [|done]. intros [= <-].
    exists p. simpl. split; [done|]. split; [done|lia].
  - done.
Qed.

Lemma invariant_step (net : nat -> network) (input : list Proxy) (a : action)
    (s s' : state) :
  invariant net input s -> step net a s = Some s' -> invariant net input s'.
Proof.
  intros [Hfs Hps Hi Hfl Hfut Hcell Hr] Hstep. destruct a as [|i|].
  - (* a worker starts a call *)
    apply step_Start_inv in Hstep as (Hlt & i & p & Hp & _ & ->).
    split; simpl; try done.
    + by rewrite length_insert.
    + rewrite (in_flight_insert_running _ _ p) by done. lia.
    + intros j f Hj. destruct (decide (j = i)) as [->|Hne].
      * rewrite list_lookup_insert_eq in Hj by (by eapply lookup_lt_Some).
        injection Hj as <-. destruct (Hfut _ _ Hp) as (p0 & ? & ?). by exists p0.
      * rewrite list_lookup_insert_ne in Hj by done.
        destruct (Hfut _ _ Hj) as (p0 & ? & ?). exists p0. by destruct f.
  - (* a call returns or raises *)
    apply step_Finish_inv in Hstep as (p & Hp & ->).
    split; simpl; try done.
    + by rewrite length_insert.
    + pose proof (in_flight_insert_finished _ _ _ (check_proxy (net i) p) Hp). lia.
    + intros j f Hj. destruct (decide (j = i)) as [->|Hne].
      * rewrite list_lookup_insert_eq in Hj by (by eapply lookup_lt_Some).
        injection Hj as <-. destruct (Hfut _ _ Hp) as (p0 & ? & -> & ?).
        exists p0. simpl. split; [done|]. split; [done|]. lia.
      * rewrite list_lookup_insert_ne in Hj by done.
        destruct (Hfut _ _ Hj) as (p0 & ? & ?). exists p0. by destruct f.
  - (* the loop receives a result *)
    apply step_Next_inv in Hstep as [Hnone [(q & status & Hq & ->)|(e & He & ->)]].
    + destruct (Hfut _ _ Hq) as (p0 & Hp0 & Hchk & _).
      symmetry in Hchk. pose proof (check_proxy_Ok _ _ _ _ Hchk) as [-> _].
      pose proof (lookup_lt_Some _ _ _ Hq) as Hlt.
      split; simpl; try done.
      * by rewrite length_insert.
      * lia.
      * intros j f Hj. destruct (Hfut _ _ Hj) as (p & Hp & Hok).
        exists p. split; [done|]. destruct f; simpl in *.
        -- destruct Hok as [-> Hle]. split; [done|].
           destruct (decide (j = loop_i s)) as [->|]; [congruence|lia].
        -- destruct Hok as [-> Hle]. split; [done|].
           destruct (decide (j = loop_i s)) as [->|]; [congruence|lia].
        -- destruct Hok as [-> Hlo]. split; [done|]. intros Hj'.
           destruct (decide (j = loop_i s)) as [->|]; [|apply Hlo; lia].
           exists status. congruence.
        -- done.
      * intros j c Hj. destruct (decide (j = loop_i s)) as [->|Hne].
        -- rewrite list_lookup_insert_eq in Hj by lia. injection Hj as <-.
           exists p0. simpl. split; [done|]. split; [done|]. split; [lia|done].
        -- rewrite list_lookup_insert_ne in Hj by done.
           destruct (Hcell _ _ Hj) as (p & Hp & Hok). exists p. split; [done|].
           destruct c; simpl in *; [split; [tauto|lia]|split_and!; [tauto|lia|tauto]].
    + destruct (Hfut _ _ He) as (p0 & Hp0 & Hchk & _).
      split; simpl; try done.
      * by rewrite length_fmap.
      * by rewrite in_flight_cancel.
      * intros j f. rewrite list_lookup_fmap.
        destruct (fs s !! j) as [f0|] eqn:Hj; [|done]. intros [= <-].
        destruct (Hfut _ _ Hj) as (p & Hp & Hok). exists p. split; [done|].
        by destruct f0.
      * intros e' [= <-]. by exists (loop_i s), p0.
Qed.

Lemma invariant_reachable (net : nat -> network) (input : list Proxy) (s : state) :
  reachable net input s -> invariant net input s.
Proof.
  unfold reachable. revert s. apply rtc_ind_r.
  - apply invariant_init.
  - intros s1 s2 _ [a Ha] IH. by eapply invariant_step.
Qed.

(** ** Where the loop ends *)

Lemma terminal_all_finished (net : nat -> network) (input : list Proxy) (s : state) :
  invariant net input s -> terminal net s -> raised s = None ->
  forall i f, fs s !! i = Some f -> exists r, f = Finished r.
Proof.
  intros Hinv Hterm Hnone.
  assert (Hrun : forall i p, fs s !! i <> Some (Running p)).
  { intros i p Hp. specialize (Hterm (Finish i)). unfold step in Hterm.
    by rewrite Hp in Hterm. }
  assert (Hpend : forall i p, fs s !! i <> Some (Pending p)).
  { apply start_first_None. specialize (Hterm Start). unfold step in Hterm.
    rewrite (in_flight_zero _ Hrun) in Hterm.
    destruct (decide (0 < max_workers)) as [|Hn]; [|by destruct Hn; unfold max_workers; lia].
    by destruct (start_first (fs s)) as [[]|]. }
  intros i f Hf. destruct f as [p|p|r|].
  - by destruct (Hpend i p).
  - by destruct (Hrun i p).
  - by exists r.
  - by destruct (inv_future _ _ _ Hinv _ _ Hf) as (p & _ & Hc).
Qed.

Lemma terminal_loop_finished (net : nat -> network) (input : list Proxy) (s : state) :
  invariant net input s -> terminal net s -> raised s = None -> loop_finished s.
Proof.
  intros Hinv Hterm Hnone. split; [done|].
  pose proof (inv_loop_i _ _ _ Hinv) as Hle.
  pose proof (inv_fs_length _ _ _ Hinv) as Hlen.
  destruct (decide (loop_i s = length (fs s))) as [|Hne]; [done|exfalso].
  destruct (lookup_lt_is_Some_2 (fs s) (loop_i s)) as [f Hf]; [lia|].
  destruct (terminal_all_finished _ _ _ Hinv Hterm Hnone _ _ Hf) as [r ->].
  specialize (Hterm Next). unfold step in Hterm. rewrite Hnone, Hf in Hterm.
  by destruct r as [[]|].
Qed.

(** Once the loop has received all its results, every call has completed and
    no call is in flight. *)
Lemma loop_finished_all_done (net : nat -> network) (input : list Proxy) (s : state) :
  invariant net input s -> loop_finished s ->
  in_flight (fs s) = 0 /\
  forall i p, input !! i = Some p -> fs s !! i = Some (Finished (check_proxy (net i) p)).
Proof.
  intros Hinv [Hnone Hfin].
  pose proof (inv_fs_length _ _ _ Hinv) as Hlen.
  assert (Hall : forall i f, fs s !! i = Some f ->
            exists p, input !! i = Some p /\ f = Finished (check_proxy (net i) p)).
  { intros i f Hf. pose proof (lookup_lt_Some _ _ _ Hf) as Hlt.
    destruct (inv_future _ _ _ Hinv _ _ Hf) as (p & Hp & Hok).
    exists p. split; [done|]. destruct f; simpl in Hok.
    - lia.
    - lia.
    - by destruct Hok as [-> _].
    - done. }
  split.
  - apply in_flight_zero. intros i p Hp. by destruct (Hall _ _ Hp) as (? & _ & ?).
  - intros i p Hp.
    destruct (lookup_lt_is_Some_2 (fs s) i) as [f Hf].
    { rewrite Hlen. by eapply lookup_lt_Some. }
    destruct (Hall _ _ Hf) as (p' & Hp' & ->). congruence.
Qed.

Lemma loop_finished_results (net : nat -> network) (input : list Proxy) (s : state) :
  invariant net input s -> loop_finished s -> results_in_order net input s.
Proof.
  intros Hinv [Hnone Hfin].
  pose proof (inv_fs_length _ _ _ Hinv) as Hlen.
  pose proof (inv_proxies_length _ _ _ Hinv) as Hlen'.
  split; [done|]. split; [done|].
  intros i p Hp. pose proof (lookup_lt_Some _ _ _ Hp) as Hlt.
  destruct (lookup_lt_is_Some_2 (proxies s) i) as [c Hc]; [lia|].
  destruct (inv_cell _ _ _ Hinv _ _ Hc) as (p' & Hp' & Hok).
  assert (p' = p) as -> by congruence.
  destruct c as [q|q status]; simpl in Hok.
  - lia.
  - destruct Hok as (-> & _ & Hchk). by exists status.
Qed.

(** When the loop was left by an exception, some probe raised it, and it is
    not a RequestException. *)
Lemma raised_is_fatal (net : nat -> network) (input : list Proxy) (s : state) (e : exn) :
  invariant net input s -> raised s = Some e ->
  is_RequestException e = false /\
  exists i p, input !! i = Some p /\ net i (probe_request p) = Raise e.
Proof.
  intros Hinv He. destruct (inv_raised _ _ _ Hinv _ He) as (i & p & Hp & Hchk).
  apply check_proxy_Raise in Hchk as [Hget Hcls]. split; [done|]. by exists i, p.
Qed.

(** ** Every run ends *)

Lemma sum_weight_insert (l : list future) (i : nat) (f g : future) :
  l !! i = Some f ->
  sum_list (weight <$> <[i := g]> l) + weight f = sum_list (weight <$> l) + weight g.
Proof.
  revert i. induction l as [|h l IH]; intros [|i] H; simplify_eq/=; [lia|].
  specialize (IH _ H). lia.
Qed.

Lemma sum_weight_cancel (l : list future) :
  sum_list (weight <$> (cancel <$> l)) <= sum_list (weight <$> l).
Proof.
  induction l as [|f l IH]; [done|]. rewrite !fmap_cons. destruct f; simpl; lia.
Qed.

Lemma sum_weight_pending (input : list Proxy) :
  sum_list (weight <$> (Pending <$> input)) = 2 * length input.
Proof. induction input as [|p l IH]; [done|]. rewrite !fmap_cons. simpl. lia. Qed.

Lemma remaining_init (input : list Proxy) : remaining (init input) = 3 * length input.
Proof.
  unfold remaining, init. simpl. rewrite sum_weight_pending, length_fmap. lia.
Qed.

Lemma step_remaining (net : nat -> network) (a : action) (s s' : state) :
  step net a s = Some s' -> remaining s' < remaining s.
Proof.
  intros Hstep. destruct a as [|i|]; unfold remaining.
  - apply step_Start_inv in Hstep as (_ & i & p & Hp & _ & ->). simpl.
    pose proof (sum_weight_insert _ _ _ (Running p) Hp) as H.
    rewrite length_insert. simpl in H. lia.
  - apply step_Finish_inv in Hstep as (p & Hp & ->). simpl.
    pose proof (sum_weight_insert _ _ _ (Finished (check_proxy (net i) p)) Hp) as H.
    rewrite length_insert. simpl in H. lia.
  - apply step_Next_inv in Hstep as [Hnone [(q & status & Hq & ->)|(e & He & ->)]];
      simpl; rewrite Hnone.
    + pose proof (lookup_lt_Some _ _ _ Hq). lia.
    + pose proof (lookup_lt_Some _ _ _ He). pose proof (sum_weight_cancel (fs s)). lia.
Qed.

Lemma step_candidate (net : nat -> network) (a : action) (s s' : state) :
  step net a s = Some s' -> a ∈ enabled net s.
Proof.
  intros Hstep. unfold enabled. apply list_elem_of_filter. split; [by rewrite Hstep|].
  unfold candidates. destruct a as [|i|].
  - set_solver.
  - apply step_Finish_inv in Hstep as (p & Hp & _).
    do 2 apply list_elem_of_further. apply list_elem_of_fmap. exists i. split; [done|].
    apply elem_of_seq. pose proof (lookup_lt_Some _ _ _ Hp). lia.
  - set_solver.
Qed.

Lemma enabled_nil_terminal (net : nat -> network) (s : state) :
  enabled net s = [] -> terminal net s.
Proof.
  intros Hnil a. destruct (step net a s) as [s'|] eqn:Hstep; [|done].
  apply step_candidate in Hstep. rewrite Hnil in Hstep. by apply elem_of_nil in Hstep.
Qed.

Lemma run_reaches (net : nat -> network) (pick : nat -> nat) (fuel : nat) (s : state) :
  rtc (steps net) s (run net pick fuel s).
Proof.
  revert s. induction fuel as [|n IH]; intros s; simpl; [done|].
  destruct (enabled net s !! _) as [a|]; [|done].
  destruct (step net a s) as [s'|] eqn:Hstep; [|done].
  eapply rtc_l; [by exists a|apply IH].
Qed.

Lemma run_terminal (net : nat -> network) (pick : nat -> nat) (fuel : nat) (s : state) :
  remaining s <= fuel -> terminal net (run net pick fuel s).
Proof.
  revert s. induction fuel as [|n IH]; intros s Hfuel; simpl.
  - intros a. destruct (step net a s) as [s'|] eqn:Hstep; [|done].
    apply step_remaining in Hstep. lia.
  - destruct (enabled net s !! _) as [a|] eqn:Ha.
    + apply list_elem_of_lookup_2, list_elem_of_filter in Ha as [[s' Hs'] _].
      rewrite Hs'. apply IH. apply step_remaining in Hs'. lia.
    + apply enabled_nil_terminal. apply lookup_ge_None in Ha.
      destruct (enabled net s) as [|a0 l]; [done|exfalso].
      pose proof (Nat.mod_upper_bound (pick n) (length (a0 :: l))) as Hm.
      simpl in *. lia.
Qed.

(** Under every scheduler the run of [dispatch] is a run of the loop, and it
    ends in a state where nothing can move. *)
Lemma dispatch_reachable (net : nat -> network) (pick : nat -> nat) (input : list Proxy) :
  reachable net input (dispatch net pick input).
Proof. apply run_reaches. Qed.

Lemma dispatch_terminal (net : nat -> network) (pick : nat -> nat) (input : list Proxy) :
  terminal net (dispatch net pick input).
Proof. apply run_terminal. by rewrite remaining_init. Qed.

(** ** The dispatch: order of the results *)

(** However the run went, it ends in one of two ways: the loop received every
    result, and the list holds the pairs in input order; or the loop was left
    by the exception of a probe, which is not a RequestException. *)
Lemma terminal_cases (net : nat -> network) (input : list Proxy) (s : state) :
  reachable net input s -> terminal net s ->
  results_in_order net input s \/
  exists e, raised s = Some e /\ is_RequestException e = false /\
    exists i p, input !! i = Some p /\ net i (probe_request p) = Raise e.
Proof.
  intros Hinv%invariant_reachable Hterm.
  destruct (raised s) as [e|] eqn:He.
  - right. exists e. split; [done|]. by eapply raised_is_fatal.
  - left. eapply loop_finished_results; [done|]. by eapply terminal_loop_finished.
Qed.

(** C1 as stated fails: with one record whose probe raises ValueError inside
    the client, the run ends with the loop left by that exception and the
    record not replaced by a result. *)
Lemma dispatch_order_counterexample :
  let s := dispatch broken_probes (fun n => n) [proxy_a] in
  reachable broken_probes [proxy_a] s /\
  terminal broken_probes s /\
  raised s = Some ValueError /\
  proxies s = [Raw proxy_a] /\
  ~ results_in_order broken_probes [proxy_a] s.
Proof.
  split_and!.
  - apply dispatch_reachable.
  - apply dispatch_terminal.
  - reflexivity.
  - reflexivity.
  - intros [H _]. vm_compute in H. discriminate H.
Qed.

(** The same run seen from main: the exception of the probe ends main, and
    no file is written. *)
Example main_fatal_probe :
  main {| page_net := serve (Some [page_header; page_row proxy_a]);
          probe_net := broken_probes;
          pick := fun n => n; indexer := stable_indexer; now := sample_time |}
  = {| returned := Raise ValueError; probed := [probe_request proxy_a];
       written := None |}.
Proof. reflexivity. Qed.

(** C1, amended: when no probe raises an exception other than a
    RequestException, every run of the dispatch, whatever the order in which
    the calls complete, ends with a list of exactly N elements whose element
    [i] is the pair of input record [i] and its label; and under every
    scheduler the dispatch does end so. *)
Theorem dispatch_preserves_order (net : nat -> network) (input : list Proxy) :
  nonfatal net input ->
  (forall s, reachable net input s -> terminal net s -> results_in_order net input s) /\
  (forall pick, results_in_order net input (dispatch net pick input)).
Proof.
  intros Hnf.
  assert (H : forall s, reachable net input s -> terminal net s ->
                        results_in_order net input s).
  { intros s Hreach Hterm.
    destruct (terminal_cases _ _ _ Hreach Hterm) as [|(e & _ & He & i & p & Hp & Hget)];
      [done|].
    rewrite (Hnf _ _ _ Hp Hget) in He. discriminate He. }
  split; [done|]. intros pick. apply H.
  - apply dispatch_reachable.
  - apply dispatch_terminal.
Qed.

Lemma sample_probes_nonfatal (input : list Proxy) : nonfatal sample_probes input.
Proof.
  intros i p e _ H. destruct i as [|[|i]]; simpl in H; [|done..].
  by injection H as <-.
Qed.

Lemma dispatch_preserves_order_witness :
  nonfatal sample_probes [proxy_a; proxy_b; proxy_c] /\
  results_in_order sample_probes [proxy_a; proxy_b; proxy_c]
    (dispatch sample_probes (fun n => 2 * n) [proxy_a; proxy_b; proxy_c]).
Proof.
  split; [apply sample_probes_nonfatal|].
  apply (proj2 (dispatch_preserves_order sample_probes [proxy_a; proxy_b; proxy_c]
                  (sample_probes_nonfatal _))).
Defined.

(** A run in which the last call completes first: the list still comes out in
    input order. *)
Example dispatch_last_completes_first :
  let input := [proxy_a; proxy_b; proxy_c] in
  let s := foldl (fun s a => default s (step sample_probes a s)) (init input)
             [Start; Start; Start; Finish 2; Finish 1; Finish 0; Next; Next; Next] in
  proxies s = [Checked proxy_a "not working"; Checked proxy_b "working";
               Checked proxy_c "not working"].
Proof. reflexivity. Qed.

(** ** The dispatch: the bound on the calls in flight *)



(** With 101 records and a scheduler that lets no call complete, the pool fills
    up: 100 calls are in flight, the last record waits and cannot start. *)
Example pool_full :
  let s := run sample_probes (fun _ => 0) 100 (init (replicate 101 proxy_a)) in
  in_flight (fs s) = 100 /\
  fs s !! 100 = Some (Pending proxy_a) /\
  step sample_probes Start s = None.
Proof. by vm_compute. Qed.

(** C3: a RequestException raised by the request never leaves check_proxy: it
    is turned into the label "not working".  Any other exception leaves
    check_proxy as it is, and these are the only exceptions check_proxy
    raises; a run of the dispatch in which a probe raises one ends with the
    loop left by such an exception. *)
Theorem check_proxy_faults (get : network) (proxy : Proxy) :
  (forall e, get (probe_request proxy) = Raise e -> is_RequestException e = true ->
     check_proxy get proxy = Ok (proxy, "not working")) /\
  (forall e, get (probe_request proxy) = Raise e -> is_RequestException e = false ->
     check_proxy get proxy = Raise e) /\
  (forall e, check_proxy get proxy = Raise e ->
     is_RequestException e = false /\ get (probe_request proxy) = Raise e) /\
  (forall net input s i e,
     reachable net input s -> terminal net s ->
     input !! i = Some proxy -> net i (probe_request proxy) = Raise e ->
     is_RequestException e = false ->
     exists e', raised s = Some e' /\ is_RequestException e' = false).
Proof.
  split_and!.
  - rewrite check_proxy_unfold. by intros e -> ->.
  - rewrite check_proxy_unfold. by intros e -> ->.
  - intros e [? ?]%check_proxy_Raise. done.
  - intros net input s i e Hreach Hterm Hi Hget He.
    destruct (terminal_cases _ _ _ Hreach Hterm) as [(_ & _ & Hall)|(e' & ? & ? & _)].
    + destruct (Hall _ _ Hi) as (status & _ & Hchk).
      rewrite check_proxy_unfold, Hget, He in Hchk. discriminate Hchk.
    + by exists e'.
Qed.

(** ** fetch_proxies *)

Lemma parse_row_short (cols : list string) :
  length cols < 8 -> parse_row cols = Raise IndexError.
Proof.
  intros Hlen. unfold parse_row, col_text.
  do 8 (destruct cols as [|? cols]; [done|]). simpl in Hlen. lia.
Qed.

Lemma parse_row_cases (cols : list string) :
  parse_row cols = Raise IndexError \/ exists p, parse_row cols = Ok p.
Proof.
  destruct (decide (length cols < 8)) as [Hlt|Hge].
  - left. by apply parse_row_short.
  - right. do 8 (destruct cols as [|? cols]; [simpl in Hge; lia|]). by eexists.
Qed.

Lemma parse_rows_short (rows : table) :
  Exists (fun cols => length cols < 8) rows -> parse_rows rows = Raise IndexError.
Proof.
  induction 1 as [cols rest Hlen|cols rest _ IH]; simpl.
  - by rewrite parse_row_short.
  - destruct (parse_row_cases cols) as [->|[p ->]]; [done|]. simpl. by rewrite IH.
Qed.

Lemma fetch_proxies_fails (get : network) :
  unreachable get \/ unparseable get -> exists e, fetch_proxies get = Raise e.
Proof.
  unfold fetch_proxies.
  intros [[e He]|(r & Hr & [Hnone|(tbl & Htbl & Hshort)])].
  - exists e. by rewrite He.
  - exists AttributeError. rewrite Hr. simpl. by rewrite Hnone.
  - exists IndexError. rewrite Hr. simpl. rewrite Htbl. by apply parse_rows_short.
Qed.

(** C8: when the source page cannot be fetched, or it has no table of the
    expected class, or a line of the table is too short, fetch_proxies raises;
    main ends with that exception, having issued no probe and written no
    file, and the exit status is not zero. *)
Theorem fetch_failure_is_fatal (w : world) :
  unreachable (page_net w) \/ unparseable (page_net w) ->
  exists e, fetch_proxies (page_net w) = Raise e /\
            returned (main w) = Raise e /\
            probed (main w) = [] /\
            written (main w) = None /\
            exit_status (main w) <> 0%Z.
Proof.
  intros [e He]%fetch_proxies_fails. exists e. split; [done|].
  unfold exit_status, main, main_body. by rewrite He.
Qed.

Lemma fetch_failure_is_fatal_witness :
  unparseable (page_net no_table_world) /\
  returned (main no_table_world) = Raise AttributeError.
Proof.
  assert (H : unparseable (page_net no_table_world)).
  { eexists. split; [reflexivity|]. by left. }
  split; [done|].
  destruct (fetch_failure_is_fatal no_table_world (or_intror H)) as (e & He & Hret & _).
  vm_compute in He. injection He as <-. exact Hret.
Defined.

(** The same for a page that cannot be fetched and for a table with a short
    line. *)
Example fetch_unreachable :
  main {| page_net := fun _ => Raise ConnectionError; probe_net := sample_probes;
          pick := fun n => n; indexer := stable_indexer; now := sample_time |}
  = {| returned := Raise ConnectionError; probed := []; written := None |}.
Proof. reflexivity. Qed.

Example fetch_short_line :
  main {| page_net := serve (Some [page_header; page_row proxy_a; ["10.0.0.9"; "80"]]);
          probe_net := sample_probes;
          pick := fun n => n; indexer := stable_indexer; now := sample_time |}
  = {| returned := Raise IndexError; probed := []; written := None |}.
Proof. reflexivity. Qed.

(** ** From the list of results to the frame *)

Lemma take_rows_fmap {A B} (f : A -> B) (ix : list nat) (l : list A) :
  take_rows ix (f <$> l) = f <$> take_rows ix l.
Proof.
  unfold take_rows. induction ix as [|i ix IH]; [done|].
  csimpl. rewrite list_lookup_fmap, IH. by destruct (l !! i).
Qed.

Lemma take_rows_nil {A} (ix : list nat) : take_rows ix (@nil A) = [].
Proof. unfold take_rows. by induction ix. Qed.

Lemma as_proxies_fmap (ps : list Proxy) : as_proxies (PProxy <$> ps) = Some ps.
Proof. induction ps as [|p ps IH]; [done|]. rewrite fmap_cons. simpl. by rewrite IH. Qed.

Lemma as_strings_fmap (l : list string) : as_strings (PStr <$> l) = Some l.
Proof. induction l as [|x l IH]; [done|]. rewrite fmap_cons. simpl. by rewrite IH. Qed.

Lemma min_length_checked (results : list (Proxy * string)) :
  foldr Nat.min 2 (length <$> (cell_items <$> (uncurry Checked <$> results))) = 2.
Proof.
  induction results as [|[p status] l IH]; [done|].
  rewrite !fmap_cons. simpl. by rewrite IH.
Qed.

Lemma first_items_checked (results : list (Proxy * string)) :
  omap (fun y : list pyval => y !! 0) (cell_items <$> (uncurry Checked <$> results))
  = PProxy <$> results.*1.
Proof.
  induction results as [|[p status] l IH]; [done|].
  rewrite !fmap_cons. csimpl. by rewrite IH.
Qed.

Lemma second_items_checked (results : list (Proxy * string)) :
  omap (fun y : list pyval => y !! 1) (cell_items <$> (uncurry Checked <$> results))
  = PStr <$> results.*2.
Proof.
  induction results as [|[p status] l IH]; [done|].
  rewrite !fmap_cons. csimpl. by rewrite IH.
Qed.

(** A list of pairs unzips into the tuple of the records and the tuple of the
    labels; the empty list unzips into nothing. *)
Lemma zip_star_checked (results : list (Proxy * string)) :
  results <> [] ->
  zip_star (cell_items <$> (uncurry Checked <$> results))
  = [PProxy <$> results.*1; PStr <$> results.*2].
Proof.
  intros Hne. destruct results as [|[p status] l]; [done|].
  pose proof (min_length_checked l) as Hmin.
  pose proof (first_items_checked ((p, status) :: l)) as H0.
  pose proof (second_items_checked ((p, status) :: l)) as H1.
  rewrite !fmap_cons in *. unfold zip_star. simpl length. rewrite Hmin.
  simpl seq. rewrite !fmap_cons. by rewrite H0, H1.
Qed.

Lemma zip_rows (results : list (Proxy * string)) :
  zip_with (fun r v => r ++ [v]) (Proxy_astuple <$> results.*1) results.*2
  = row_of <$> results.
Proof.
  induction results as [|[p status] l IH]; [done|].
  rewrite !fmap_cons. csimpl. by rewrite IH.
Qed.

Lemma status_column (results : list (Proxy * string)) :
  column_values 6 (frame_of results) = results.*2.
Proof.
  unfold column_values, frame_of. simpl. rewrite <- list_fmap_compose.
  by apply list_fmap_ext.
Qed.

Lemma status_cell_row_of (r : Proxy * string) : status_cell (row_of r) = r.2.
Proof. done. Qed.

(** The Reporter on the frame of a list of results: the rows are the rows of
    the results, taken in the order the sorting kernel gives for the labels. *)
Lemma export_sorted_df_frame (ix : list string -> list nat) (t : struct_tm)
    (results : list (Proxy * string)) (name : string) :
  export_sorted_df ix t (frame_of results) name =
  Ok {| file_name := name +:+ "_" +:+ datetime_string t +:+ ".xlsx";
        header := Proxy_fields ++ ["status"];
        body := row_of <$> take_rows (ix results.*2) results |}.
Proof.
  unfold export_sorted_df. rewrite timing_id. unfold export_sorted_df_body.
  unfold sort_values.
  change (fst <$> list_find (fun c => c = "status") (columns (frame_of results)))
    with (Some 6).
  simpl. rewrite status_column. unfold to_excel. simpl.
  by rewrite take_rows_fmap.
Qed.

Lemma export_results_checked (w : world) (results : list (Proxy * string)) :
  results <> [] ->
  export_results w (uncurry Checked <$> results) = Ok (report w results).
Proof.
  intros Hne. unfold export_results. rewrite (zip_star_checked _ Hne). simpl.
  unfold new_frame. rewrite as_proxies_fmap. simpl.
  unfold set_column. rewrite as_strings_fmap. simpl.
  rewrite decide_True by (by rewrite !length_fmap).
  simpl. rewrite zip_rows.
  destruct results as [|r l] eqn:E; [done|]. rewrite <- E.
  replace (match results.*1 with [] => [] | _ :: _ => Proxy_fields end)
    with Proxy_fields by (by rewrite E).
  apply (export_sorted_df_frame (indexer w) (now w) results "freeproxylist").
Qed.

Lemma export_results_nil (w : world) : export_results w [] = Raise ValueError.
Proof. done. Qed.

(** When the loop has received every result, the list is a list of pairs. *)
Lemma results_in_order_checked (net : nat -> network) (input : list Proxy) (s : state) :
  results_in_order net input s ->
  exists results, proxies s = uncurry Checked <$> results /\ results.*1 = input /\
    Forall (fun r => r.2 = "working" \/ r.2 = "not working") results.
Proof.
  intros (_ & Hlen & Hall). exists (cell_result <$> proxies s). split_and!.
  - apply list_eq. intros i. rewrite !list_lookup_fmap.
    destruct (proxies s !! i) as [c|] eqn:Hc; [|done]. simpl.
    destruct (lookup_lt_is_Some_2 input i) as [p Hp].
    { rewrite <- Hlen. by eapply lookup_lt_Some. }
    destruct (Hall _ _ Hp) as (status & Hs & _). by simplify_eq.
  - apply list_eq. intros i. rewrite !list_lookup_fmap.
    destruct (input !! i) as [p|] eqn:Hp.
    + destruct (Hall _ _ Hp) as (status & -> & _). done.
    + apply lookup_ge_None in Hp. rewrite lookup_ge_None_2; [done|lia].
  - apply Forall_forall. intros r (c & -> & Hc)%list_elem_of_fmap.
    apply list_elem_of_lookup in Hc as [i Hi].
    destruct (lookup_lt_is_Some_2 input i) as [p Hp].
    { rewrite <- Hlen. by eapply lookup_lt_Some. }
    destruct (Hall _ _ Hp) as (status & Hs & Hchk).
    assert (c = Checked p status) as -> by congruence.
    by apply check_proxy_Ok in Hchk as [_ ?].
Qed.

(** ** main, case by case *)

(** A run of main ends in one of four ways: the fetch raised; a probe raised
    an exception that is not a RequestException; the fetch gave no record and
    the unpacking raised ValueError; or the report of the results, which are
    the input records in input order with their labels, was written. *)
Lemma main_cases (w : world) :
  match fetch_proxies (page_net w) with
  | Raise e => main w = {| returned := Raise e; probed := []; written := None |}
  | Ok input =>
      let s := dispatch (probe_net w) (pick w) input in
      (exists e, raised s = Some e /\ is_RequestException e = false /\
         main w = {| returned := Raise e; probed := sent s; written := None |}) \/
      (input = [] /\
         main w = {| returned := Raise ValueError; probed := []; written := None |}) \/
      (exists results, results <> [] /\ results.*1 = input /\
         Forall (fun r => r.2 = "working" \/ r.2 = "not working") results /\
         main w = {| returned := Ok (); probed := sent s;
                     written := Some (report w results) |})
  end.
Proof.
  unfold main, main_body. destruct (fetch_proxies (page_net w)) as [input|e]; [|done].
  set (s := dispatch (probe_net w) (pick w) input).
  destruct (terminal_cases (probe_net w) input s) as [Hres|(e & He & Hcls & _)].
  { apply dispatch_reachable. } { apply dispatch_terminal. }
  - pose proof Hres as (Hnone & _ & _).
    destruct (results_in_order_checked _ _ _ Hres) as (results & Hps & Hin & Hst).
    rewrite Hnone, Hps.
    destruct results as [|r l].
    + right; left. simpl in Hin. subst input. done.
    + right; right. exists (r :: l). split_and!; try done.
      by rewrite export_results_checked.
  - left. exists e. by rewrite He.
Qed.

(** ** No candidate *)

(** On an empty list the dispatch has nothing to do and leaves the list
    empty. *)
Lemma dispatch_nil (net : nat -> network) (pick : nat -> nat) :
  dispatch net pick [] = init [].
Proof. done. Qed.

(** The Reporter itself accepts a frame without rows: it writes the header
    and no row. *)
Lemma export_empty_frame (ix : list string -> list nat) (t : struct_tm) (name : string) :
  exists a, export_sorted_df ix t (frame_of []) name = Ok a /\
            header a = Proxy_fields ++ ["status"] /\ body a = [].
Proof.
  rewrite export_sorted_df_frame. eexists. split; [reflexivity|].
  split; [done|]. simpl. by rewrite take_rows_nil.
Qed.

(** But main does not get that far: unpacking the result of zip on the empty
    list raises ValueError, and nothing is written. *)
Lemma main_nil (w : world) :
  fetch_proxies (page_net w) = Ok [] ->
  main w = {| returned := Raise ValueError; probed := []; written := None |}.
Proof. intros H. unfold main, main_body. by rewrite H. Qed.

(** C5, on the code: for a source table with a header line and no data line
    the fetch returns the empty list, the dispatch leaves it empty, and main
    ends with ValueError: no file is written and the exit status is 1. *)
Theorem main_no_candidates :
  fetch_proxies (page_net empty_world) = Ok [] /\
  proxies (dispatch (probe_net empty_world) (pick empty_world) []) = [] /\
  main empty_world =
    {| returned := Raise ValueError; probed := []; written := None |} /\
  exit_status (main empty_world) = 1%Z.
Proof. by vm_compute. Qed.

(** ** The name and the columns of the report *)

Lemma digit_mod (n : nat) : digit (n `mod` 10) = digit n.
Proof. unfold digit. by rewrite Nat.Div0.mod_mod. Qed.

Lemma decimal_go_S (fuel n : nat) :
  decimal_go (S fuel) n =
  (if decide (n < 10) then "" else decimal_go fuel (n `div` 10)) +:+ digit n.
Proof. done. Qed.

Lemma decimal_four (y : nat) :
  1000 <= y < 10 * 1000 ->
  exists y1 y2 y3 y4,
    decimal y = digit y1 +:+ digit y2 +:+ digit y3 +:+ digit y4 /\
    (y1 < 10 /\ y2 < 10 /\ y3 < 10 /\ y4 < 10) /\
    y = 1000 * y1 + 100 * y2 + 10 * y3 + y4.
Proof.
  intros H. unfold decimal.
  pose proof (Nat.div_mod_eq y 10) as E1.
  pose proof (Nat.div_mod_eq (y `div` 10) 10) as E2.
  pose proof (Nat.div_mod_eq ((y `div` 10) `div` 10) 10) as E3.
  pose proof (Nat.mod_upper_bound y 10) as B1.
  pose proof (Nat.mod_upper_bound (y `div` 10) 10) as B2.
  pose proof (Nat.mod_upper_bound ((y `div` 10) `div` 10) 10) as B3.
  set (a := y `div` 10) in *. set (b := a `div` 10) in *. set (c := b `div` 10) in *.
  exists c, (b `mod` 10), (a `mod` 10), (y `mod` 10).
  split; [|lia]. rewrite !digit_mod.
  replace (S y) with (S (S (S (S (y - 3))))) by lia.
  rewrite !decimal_go_S. fold a. fold b. fold c.
  rewrite (decide_False (P := y < 10)) by lia.
  rewrite (decide_False (P := a < 10)) by lia.
  rewrite (decide_False (P := b < 10)) by lia.
  rewrite (decide_True (P := c < 10)) by lia.
  reflexivity.
Qed.

Lemma pad2_digits (n : nat) :
  n < 100 ->
  exists d1 d2, pad2 n = digit d1 +:+ digit d2 /\ (d1 < 10 /\ d2 < 10) /\ n = 10 * d1 + d2.
Proof.
  intros H. exists (n `div` 10), (n `mod` 10). rewrite digit_mod.
  pose proof (Nat.div_mod_eq n 10). pose proof (Nat.mod_upper_bound n 10).
  split; [done|]. lia.
Qed.

Lemma datetime_string_stamp (t : struct_tm) :
  valid_tm t -> is_stamp t (datetime_string t).
Proof.
  intros (Hy & Hm & Hd & Hh & Hn).
  destruct (decimal_four _ Hy) as (y1 & y2 & y3 & y4 & Ey & (? & ? & ? & ?) & ?).
  destruct (pad2_digits (tm_mon t)) as (m1 & m2 & Em & (? & ?) & ?); [lia|].
  destruct (pad2_digits (tm_mday t)) as (d1 & d2 & Ed & (? & ?) & ?); [lia|].
  destruct (pad2_digits (tm_hour t)) as (h1 & h2 & Eh & (? & ?) & ?); [lia|].
  destruct (pad2_digits (tm_min t)) as (n1 & n2 & En & (? & ?) & ?); [lia|].
  exists y1, y2, y3, y4, m1, m2, d1, d2, h1, h2, n1, n2. split_and!; try done.
  - repeat (apply Forall_cons_2; [done|]). apply Forall_nil_2.
  - unfold datetime_string. by rewrite Ey, Em, Ed, Eh, En.
Qed.

(** C9: the file main writes is named "freeproxylist", an underscore, the
    local time, ".xlsx"; for a time in a year of four digits the time is
    written as YYYY_MM_DD_HHMM; the columns are the six fields of Proxy and
    "status", and every row has these seven cells. *)
Theorem report_name_and_columns (w : world) (a : artifact) :
  written (main w) = Some a ->
  file_name a = "freeproxylist" +:+ "_" +:+ datetime_string (now w) +:+ ".xlsx" /\
  (valid_tm (now w) -> is_stamp (now w) (datetime_string (now w))) /\
  header a = ["ip"; "port"; "country"; "anonymity"; "https"; "last_checked"; "status"] /\
  Forall (fun row => length row = 7) (body a).
Proof.
  intros Ha. pose proof (main_cases w) as H.
  destruct (fetch_proxies (page_net w)) as [input|e].
  - destruct H as [(e & _ & _ & Hm)|[(_ & Hm)|(results & _ & _ & _ & Hm)]];
      rewrite Hm in Ha; simpl in Ha; try done.
    injection Ha as <-. split_and!; try done.
    + apply datetime_string_stamp.
    + simpl. apply Forall_fmap, Forall_forall. by intros [p status] _.
  - by rewrite H in Ha.
Qed.

Lemma report_name_and_columns_witness :
  exists a, written (main sample_world) = Some a /\
            file_name a = "freeproxylist_2022_09_05_0703.xlsx".
Proof.
  eexists. split; [reflexivity|].
  apply (report_name_and_columns sample_world). reflexivity.
Defined.

(** ** Sorting: what every kernel gives *)

Lemma take_rows_app {A} (ix1 ix2 : list nat) (l : list A) :
  take_rows (ix1 ++ ix2) l = take_rows ix1 l ++ take_rows ix2 l.
Proof. unfold take_rows. apply omap_app. Qed.

Lemma take_rows_seq_app {A} (l1 l2 : list A) :
  take_rows (seq (length l1) (length l2)) (l1 ++ l2) = l2.
Proof.
  revert l1. induction l2 as [|x l2 IH]; intros l1; [done|].
  unfold take_rows in *. simpl length. simpl seq. csimpl.
  rewrite list_lookup_middle by done. csimpl. f_equal.
  specialize (IH (l1 ++ [x])). rewrite length_app, <- app_assoc in IH. simpl in IH.
  by rewrite Nat.add_1_r in IH.
Qed.

Lemma take_rows_seq {A} (l : list A) : take_rows (seq 0 (length l)) l = l.
Proof. apply (take_rows_seq_app [] l). Qed.

(** Taking every position once gives the same rows in another order. *)
Lemma take_rows_permutation {A} (ix : list nat) (l : list A) :
  ix ≡ₚ seq 0 (length l) -> take_rows ix l ≡ₚ l.
Proof.
  intros H. rewrite <- (take_rows_seq l) at 2. unfold take_rows. by rewrite H.
Qed.

Lemma sorted_results_permutation (ix : list string -> list nat)
    (results : list (Proxy * string)) :
  sorts_descending results.*2 (ix results.*2) ->
  sorted_results ix results ≡ₚ results.
Proof.
  intros [Hperm _]. apply take_rows_permutation.
  by rewrite length_fmap in Hperm.
Qed.







(** ** The two kernels are descending sorts *)

Section insertion.
Variable before : string -> string -> bool.
Variable keys : list string.

Hypothesis before_true : forall a b, before a b = true -> String.leb b a = true.
Hypothesis before_false : forall a b, before a b = false -> String.leb a b = true.

Lemma insert_by_permutation (i : nat) (ix : list nat) :
  insert_by before keys i ix ≡ₚ i :: ix.
Proof.
  induction ix as [|j rest IH]; simpl; [done|].
  destruct (before (key_at keys i) (key_at keys j)); [done|].
  rewrite IH. apply Permutation_swap.
Qed.

Lemma insert_by_head (x : string) (i : nat) (ix : list nat) :
  descending x (key_at keys i) -> HdRel descending x (key_at keys <$> ix) ->
  HdRel descending x (key_at keys <$> insert_by before keys i ix).
Proof.
  intros Hi Hix. destruct ix as [|j rest]; simpl.
  - by constructor.
  - destruct (before (key_at keys i) (key_at keys j)); constructor; [done|].
    by apply HdRel_inv in Hix.
Qed.

Lemma insert_by_sorted (i : nat) (ix : list nat) :
  Sorted descending (key_at keys <$> ix) ->
  Sorted descending (key_at keys <$> insert_by before keys i ix).
Proof.
  induction ix as [|j rest IH]; intros Hs; simpl.
  - by repeat constructor.
  - destruct (before (key_at keys i) (key_at keys j)) eqn:Hb.
    + rewrite fmap_cons. constructor; [done|]. constructor.
      by apply before_true.
    + rewrite fmap_cons in Hs. apply Sorted_inv in Hs as [Hs Hhd].
      rewrite fmap_cons. constructor; [by apply IH|].
      apply insert_by_head; [|done]. by apply before_false.
Qed.

Lemma foldr_insert_permutation (l : list nat) :
  foldr (insert_by before keys) [] l ≡ₚ l.
Proof.
  induction l as [|i l IH]; simpl; [done|].
  by rewrite insert_by_permutation, IH.
Qed.

Lemma foldr_insert_sorted (l : list nat) :
  Sorted descending (key_at keys <$> foldr (insert_by before keys) [] l).
Proof.
  induction l as [|i l IH]; simpl; [constructor|]. by apply insert_by_sorted.
Qed.

Lemma take_rows_key_at (ix : list nat) :
  Forall (fun i => i < length keys) ix -> take_rows ix keys = key_at keys <$> ix.
Proof.
  unfold take_rows, key_at. induction 1 as [|i ix Hi _ IH]; [done|]. csimpl.
  destruct (lookup_lt_is_Some_2 keys i Hi) as [x ->]. csimpl. by rewrite IH.
Qed.

Lemma insertion_indexer_sorts :
  sorts_descending keys (insertion_indexer before keys).
Proof.
  unfold sorts_descending, insertion_indexer.
  pose proof (foldr_insert_permutation (seq 0 (length keys))) as Hperm.
  split; [done|]. rewrite take_rows_key_at; [apply foldr_insert_sorted|].
  rewrite Hperm. apply Forall_forall. intros i Hi%elem_of_seq. lia.
Qed.
End insertion.

Lemma stable_indexer_sorts (keys : list string) :
  sorts_descending keys (stable_indexer keys).
Proof.
  apply insertion_indexer_sorts.
  - done.
  - intros a b Hba. by destruct (String.leb_total a b) as [|Hab]; [|congruence].
Qed.


(** ** The rows of the report *)





(** With the stable kernel the rows of the sample keep their input order
    within each label; with the reversing kernel they do not. *)
Example export_stable_sample :
  sorted_results stable_indexer unsorted_sample = sorted_sample.
Proof. reflexivity. Qed.

Example export_reversing_sample :
  sorted_results reversing_indexer unsorted_sample =
  [(proxy_b, "working"); (proxy_c, "not working"); (proxy_a, "not working")].
Proof. reflexivity. Qed.




(** * Further properties of the script *)

(** ** fetch_proxies: what it returns and when it raises *)

Lemma parse_row_long (cols : list string) :
  8 <= length cols -> exists p, parse_row cols = Ok p /\ reads cols p.
Proof.
  intros Hlen. do 8 (destruct cols as [|? cols]; [simpl in Hlen; lia|]).
  eexists. split; [reflexivity|]. by repeat split.
Qed.

Lemma parse_rows_long (rows : table) :
  Forall (fun cols => 8 <= length cols) rows ->
  exists ps, parse_rows rows = Ok ps /\ Forall2 reads rows ps.
Proof.
  induction 1 as [|cols rest Hlen _ (ps & Hps & Hall)]; simpl.
  - by exists [].
  - destruct (parse_row_long _ Hlen) as (p & -> & Hp). simpl. rewrite Hps. simpl.
    exists (p :: ps). split; [done|]. by constructor.
Qed.

Lemma parse_rows_Raise (rows : table) (e : exn) :
  parse_rows rows = Raise e ->
  e = IndexError /\ Exists (fun cols => length cols < 8) rows.
Proof.
  induction rows as [|cols rest IH]; simpl; [done|].
  destruct (decide (length cols < 8)) as [Hlt|Hge].
  - rewrite (parse_row_short _ Hlt). intros [= <-]. split; [done|]. by left.
  - destruct (parse_row_long cols) as (p & -> & _); [lia|]. simpl.
    destruct (parse_rows rest) as [ps|e'] eqn:E; [done|].
    intros [= <-]. destruct (IH eq_refl) as [-> Hex]. split; [done|]. by right.
Qed.

(** X1: when the page comes with a table whose lines after the first all
    have at least eight cells, fetch_proxies returns one record per such
    line, in the order of the lines, made of the cells 0, 1, 3, 4, 6 and 7 of
    the line; the first line and the status code of the response play no
    part. *)
Theorem fetch_proxies_rows (get : network) (r : response) (tbl : table) :
  get fetch_request = Ok r ->
  content r = Some tbl ->
  Forall (fun cols => 8 <= length cols) (drop 1 tbl) ->
  exists ps,
    fetch_proxies get = Ok ps /\
    length ps = length tbl - 1 /\
    forall i cols, tbl !! S i = Some cols ->
      exists p, ps !! i = Some p /\ reads cols p.
Proof.
  intros Hget Htbl Hlong. unfold fetch_proxies. rewrite Hget. simpl. rewrite Htbl.
  destruct (parse_rows_long _ Hlong) as (ps & -> & Hall). exists ps.
  split; [done|]. split.
  - rewrite <- (Forall2_length _ _ _ Hall), length_drop. lia.
  - intros i cols Hi.
    destruct (Forall2_lookup_l _ _ _ i cols Hall) as (p & Hp & Hr).
    + by rewrite lookup_drop.
    + by exists p.
Qed.

Lemma fetch_proxies_rows_witness :
  exists ps,
    fetch_proxies (page_net sample_world) = Ok ps /\ length ps = 3.
Proof.
  destruct (fetch_proxies_rows (page_net sample_world)
              {| status_code := 200;
                 content := Some [page_header; page_row proxy_a; page_row proxy_b;
                                  page_row proxy_c] |}
              [page_header; page_row proxy_a; page_row proxy_b; page_row proxy_c])
    as (ps & Hps & Hlen & _).
  - reflexivity.
  - reflexivity.
  - repeat (apply Forall_cons_2; [simpl; lia|]). apply Forall_nil_2.
  - exists ps. split; [exact Hps|exact Hlen].
Defined.

(** X2: fetch_proxies raises in exactly three cases, with these exceptions:
    the request raised (that exception), the page has no table of the
    expected class (AttributeError), or a line after the first has fewer than
    eight cells (IndexError). *)
Theorem fetch_proxies_raises_iff (get : network) (e : exn) :
  fetch_proxies get = Raise e <->
  get fetch_request = Raise e \/
  (exists r, get fetch_request = Ok r /\ content r = None /\ e = AttributeError) \/
  (exists r tbl, get fetch_request = Ok r /\ content r = Some tbl /\
     Exists (fun cols => length cols < 8) (drop 1 tbl) /\ e = IndexError).
Proof.
  unfold fetch_proxies. split.
  - destruct (get fetch_request) as [r|e'] eqn:Hget; simpl.
    + destruct (content r) as [tbl|] eqn:Htbl.
      * intros [-> Hex]%parse_rows_Raise. right; right. by exists r, tbl.
      * intros [= <-]. right; left. by exists r.
    + intros [= <-]. by left.
  - intros [->|[(r & -> & Hnone & ->)|(r & tbl & -> & Htbl & Hex & ->)]]; simpl.
    + done.
    + by rewrite Hnone.
    + rewrite Htbl. by apply parse_rows_short.
Qed.

(** X3: a page whose table has no line after the first (or no line at all)
    is not a fetch failure: fetch_proxies returns the empty list, and main
    then ends with ValueError at the unpacking, having issued no probe and
    written no file. *)
Theorem main_header_only (w : world) (r : response) (tbl : table) :
  page_net w fetch_request = Ok r ->
  content r = Some tbl ->
  length tbl <= 1 ->
  fetch_proxies (page_net w) = Ok [] /\
  main w = {| returned := Raise ValueError; probed := []; written := None |}.
Proof.
  intros Hget Htbl Hlen.
  assert (Hf : fetch_proxies (page_net w) = Ok []).
  { unfold fetch_proxies. rewrite Hget. simpl. rewrite Htbl.
    by rewrite drop_ge by done. }
  split; [done|]. by apply main_nil.
Qed.

Lemma main_header_only_witness :
  main empty_world = {| returned := Raise ValueError; probed := []; written := None |}.
Proof.
  apply (main_header_only empty_world
           {| status_code := 200; content := Some [page_header] |} [page_header]).
  - reflexivity.
  - reflexivity.
  - simpl. lia.
Defined.

(** ** The dispatch: the requests issued *)

Lemma is_started_cancel (f : future) : is_started (cancel f) = is_started f.
Proof. by destruct f. Qed.

Lemma log_invariant_init (net : nat -> network) (input : list Proxy) :
  log_invariant net input (init input).
Proof.
  split; simpl; [|done].
  exists 0. split; [lia|]. split; [done|].
  intros i f. rewrite list_lookup_fmap.
  destruct (input !! i); [|done]. intros [= <-]. simpl. split; [done|lia].
Qed.

Lemma log_invariant_step (net : nat -> network) (input : list Proxy) (a : action)
    (s s' : state) :
  invariant net input s -> log_invariant net input s ->
  step net a s = Some s' -> log_invariant net input s'.
Proof.
  intros Hinv [(k & Hk & Hsent & Hst) Hr] Hstep. destruct a as [|i|].
  - (* start: the call taken is the first that has not started *)
    apply step_Start_inv in Hstep as (_ & i & p & Hp & Hfirst & ->).
    assert (Hnone : raised s = None).
    { destruct (raised s) as [e|] eqn:He; [|done].
      destruct (Hr e eq_refl) as [_ Hno]. by destruct (Hno i p). }
    assert (Hik : i = k).
    { destruct (decide (i < k)) as [Hlt|Hge].
      - apply (Hst _ _ Hp) in Hlt. done.
      - destruct (decide (i = k)) as [|Hne]; [done|exfalso].
        destruct (lookup_lt_is_Some_2 (fs s) k) as [f Hf].
        { pose proof (lookup_lt_Some _ _ _ Hp). lia. }
        destruct (inv_future _ _ _ Hinv _ _ Hf) as (q & _ & Hok).
        destruct f as [q'|q'|r'|]; simpl in Hok.
        + apply (Hfirst k q'); [lia|done].
        + pose proof (proj1 (Hst _ _ Hf) eq_refl). lia.
        + pose proof (proj1 (Hst _ _ Hf) eq_refl). lia.
        + done. }
    subst i. destruct (inv_future _ _ _ Hinv _ _ Hp) as (q & Hq & -> & _).
    split; simpl.
    + exists (S k). split; [by apply lookup_lt_Some in Hq|]. split.
      * rewrite Hsent, (take_S_r _ _ _ Hq), fmap_app. done.
      * intros j f Hj. destruct (decide (j = k)) as [->|Hne].
        -- rewrite list_lookup_insert_eq in Hj by (by eapply lookup_lt_Some).
           injection Hj as <-. simpl. split; [lia|done].
        -- rewrite list_lookup_insert_ne in Hj by done.
           rewrite (Hst _ _ Hj). lia.
    + by rewrite Hnone.
  - (* finish: a started call stays started *)
    apply step_Finish_inv in Hstep as (p & Hp & ->). split; simpl.
    + exists k. split; [done|]. split; [done|].
      intros j f Hj. destruct (decide (j = i)) as [->|Hne].
      * rewrite list_lookup_insert_eq in Hj by (by eapply lookup_lt_Some).
        injection Hj as <-. simpl. rewrite <- (Hst _ _ Hp). done.
      * rewrite list_lookup_insert_ne in Hj by done. by apply Hst.
    + intros e He. destruct (Hr e He) as [Hat Hno]. split; [done|].
      intros j q Hj. destruct (decide (j = i)) as [->|Hne].
      * by rewrite list_lookup_insert_eq in Hj by (by eapply lookup_lt_Some).
      * rewrite list_lookup_insert_ne in Hj by done. by apply (Hno j q).
  - (* the loop receives a result, or the exception of its call *)
    apply step_Next_inv in Hstep as [Hnone [(q & status & Hq & ->)|(e & He & ->)]];
      split; simpl.
    + by exists k.
    + done.
    + exists k. split; [done|]. split; [done|].
      intros j f. rewrite list_lookup_fmap.
      destruct (fs s !! j) as [f0|] eqn:Hj; [|done]. intros [= <-].
      rewrite is_started_cancel. by apply Hst.
    + intros e' [= <-]. split.
      * destruct (inv_future _ _ _ Hinv _ _ He) as (p & Hp & Hchk & _). by exists p.
      * intros j p. rewrite list_lookup_fmap. by destruct (fs s !! j) as [[]|].
Qed.

Lemma log_invariant_reachable (net : nat -> network) (input : list Proxy) (s : state) :
  reachable net input s -> invariant net input s /\ log_invariant net input s.
Proof.
  unfold reachable. revert s. apply rtc_ind_r.
  - split; [apply invariant_init|apply log_invariant_init].
  - intros s1 s2 _ [a Ha] [IH1 IH2]. split.
    + by eapply invariant_step.
    + by eapply log_invariant_step.
Qed.

Lemma loop_finished_sent (net : nat -> network) (input : list Proxy) (s : state) :
  reachable net input s -> loop_finished s -> sent s = probe_request <$> input.
Proof.
  intros [Hinv [(k & Hk & Hsent & Hst) Hr]]%log_invariant_reachable Hfin.
  rewrite Hsent. f_equal. apply take_ge.
  destruct (loop_finished_all_done _ _ _ Hinv Hfin) as [_ Hall].
  destruct (decide (length input <= k)) as [|Hlt]; [done|exfalso].
  destruct (lookup_lt_is_Some_2 input k) as [p Hp]; [lia|].
  pose proof (proj1 (Hst _ _ (Hall _ _ Hp)) eq_refl). lia.
Qed.



(** ** The dispatch against the loop without a pool *)

Lemma sequential_spec (net : nat -> network) (input : list Proxy) :
  forall (offset k : nat) (cells : list cell) (r : option exn),
  length cells = length input ->
  (forall j p, input !! j = Some p -> j < k ->
     exists status, cells !! j = Some (Checked p status) /\
                    check_proxy (net (offset + j)) p = Ok (p, status)) ->
  (forall j p, input !! j = Some p -> k <= j -> cells !! j = Some (Raw p)) ->
  match input !! k with
  | Some p => exists e, check_proxy (net (offset + k)) p = Raise e /\ r = Some e
  | None => r = None
  end ->
  sequential net offset input = (cells, r).
Proof.
  induction input as [|p rest IH]; intros offset k cells r Hlen Hlow Hhigh Hk.
  - destruct cells; [|done]. simpl in Hk. by subst r.
  - destruct cells as [|c cells]; [done|]. simpl in Hlen. simpl.
    destruct k as [|k].
    + simpl in Hk. destruct Hk as (e & Hchk & ->).
      rewrite Nat.add_0_r in Hchk. rewrite Hchk. f_equal.
      apply list_eq. intros [|j].
      * symmetry. apply (Hhigh 0 p); [done|lia].
      * change ((Raw <$> rest) !! j = cells !! j). symmetry.
        rewrite list_lookup_fmap. destruct (rest !! j) as [q|] eqn:Hq; simpl.
        -- apply (Hhigh (S j) q); [done|lia].
        -- apply lookup_ge_None. apply lookup_ge_None in Hq. lia.
    + destruct (Hlow 0 p) as (status & Hc & Hchk); [done|lia|].
      rewrite Nat.add_0_r in Hchk. rewrite Hchk. simpl in Hc. injection Hc as ->.
      rewrite (IH (S offset) k cells r); [done|lia|..].
      * intros j q Hq Hj. destruct (Hlow (S j) q) as (st & ? & ?); [done|lia|].
        exists st. split; [done|]. by rewrite Nat.add_succ_comm.
      * intros j q Hq Hj. apply (Hhigh (S j) q); [done|lia].
      * simpl in Hk. destruct (rest !! k); [|done].
        destruct Hk as (e & ? & ?). exists e. split; [|done].
        by rewrite Nat.add_succ_comm.
Qed.

(** Where a run ends, the list and the exception are those of the loop
    without a pool. *)
Lemma terminal_sequential (net : nat -> network) (input : list Proxy) (s : state) :
  reachable net input s -> terminal net s ->
  sequential net 0 input = (proxies s, raised s).
Proof.
  intros [Hinv [_ Hr]]%log_invariant_reachable Hterm.
  pose proof (inv_fs_length _ _ _ Hinv) as Hlen.
  pose proof (inv_proxies_length _ _ _ Hinv) as Hlen'.
  apply (sequential_spec net input 0 (loop_i s)); [done|..].
  - intros j p Hp Hj. pose proof (lookup_lt_Some _ _ _ Hp).
    destruct (lookup_lt_is_Some_2 (proxies s) j) as [c Hc]; [lia|].
    destruct (inv_cell _ _ _ Hinv _ _ Hc) as (p' & Hp' & Hok).
    assert (p' = p) as -> by congruence.
    destruct c as [q|q status]; simpl in Hok; [lia|].
    destruct Hok as (-> & _ & ?). by exists status.
  - intros j p Hp Hj. pose proof (lookup_lt_Some _ _ _ Hp).
    destruct (lookup_lt_is_Some_2 (proxies s) j) as [c Hc]; [lia|].
    destruct (inv_cell _ _ _ Hinv _ _ Hc) as (p' & Hp' & Hok).
    assert (p' = p) as -> by congruence.
    destruct c as [q|q status]; simpl in Hok; [|lia]. by destruct Hok as [-> _].
  - destruct (raised s) as [e|] eqn:He.
    + destruct (Hr e eq_refl) as [(p & -> & Hchk) _]. by exists e.
    + destruct (terminal_loop_finished _ _ _ Hinv Hterm He) as [_ Hfin].
      rewrite lookup_ge_None_2; [done|lia].
Qed.

(** X5: however the calls are scheduled and in whatever order they complete,
    a run of the dispatch ends with the list and with the exception that the
    loop without a pool, which checks the records one after the other and
    stops at the first exception, would end with. *)
Theorem dispatch_refines_sequential (net : nat -> network) (input : list Proxy) :
  (forall s, reachable net input s -> terminal net s ->
     (proxies s, raised s) = sequential net 0 input) /\
  (forall pick,
     (proxies (dispatch net pick input), raised (dispatch net pick input))
     = sequential net 0 input).
Proof.
  split.
  - intros s Hreach Hterm. symmetry. by apply terminal_sequential.
  - intros pick. symmetry. apply terminal_sequential.
    + apply dispatch_reachable.
    + apply dispatch_terminal.
Qed.

(** Two records, the first of which raises: the second is never written,
    whichever call completes first. *)
Example sequential_stops_at_first :
  sequential broken_probes 0 [proxy_a; proxy_b]
  = ([Raw proxy_a; Raw proxy_b], Some ValueError).
Proof. reflexivity. Qed.

(** ** main: its outcomes *)


Lemma cell_result_checked (results : list (Proxy * string)) :
  cell_result <$> (uncurry Checked <$> results) = results.
Proof.
  rewrite <- list_fmap_compose. rewrite <- (list_fmap_id results) at 2.
  apply list_fmap_ext. by intros _ [p status] _.
Qed.

(** What main does after a fetch that returned [input]. *)
Lemma main_after_fetch (w : world) (input : list Proxy) :
  fetch_proxies (page_net w) = Ok input ->
  let s := dispatch (probe_net w) (pick w) input in
  let results := cell_result <$> (sequential (probe_net w) 0 input).1 in
  match raised s with
  | Some e => main w = {| returned := Raise e; probed := sent s; written := None |}
  | None =>
      results.*1 = input /\
      (forall i r, results !! i = Some r -> check_proxy (probe_net w i) r.1 = Ok r) /\
      sent s = probe_request <$> input /\
      main w = match input with
               | [] => {| returned := Raise ValueError; probed := []; written := None |}
               | _ => {| returned := Ok (); probed := probe_request <$> input;
                         written := Some (report w results) |}
               end
  end.
Proof.
  intros Hfetch. cbv zeta.
  pose proof (dispatch_reachable (probe_net w) (pick w) input) as Hreach.
  pose proof (dispatch_terminal (probe_net w) (pick w) input) as Hterm.
  pose proof (terminal_sequential _ _ _ Hreach Hterm) as Hseq.
  unfold main, main_body. rewrite Hfetch, Hseq. cbv zeta.
  set (s := dispatch (probe_net w) (pick w) input) in *. simpl fst.
  destruct (raised s) as [e|] eqn:He; [done|].
  pose proof (invariant_reachable _ _ _ Hreach) as Hinv.
  pose proof (terminal_loop_finished _ _ _ Hinv Hterm He) as Hfin.
  pose proof (loop_finished_results _ _ _ Hinv Hfin) as Hres.
  destruct (results_in_order_checked _ _ _ Hres) as (res & Hps & Hin & _).
  rewrite Hps, cell_result_checked. split; [done|]. split; [|split].
  - intros i [p status] Hi. destruct Hres as (_ & _ & Hall).
    assert (Hp : input !! i = Some p).
    { rewrite <- Hin, list_lookup_fmap, Hi. done. }
    destruct (Hall _ _ Hp) as (status' & Hc & Hchk).
    rewrite Hps, list_lookup_fmap, Hi in Hc. simpl in Hc.
    injection Hc as <-. done.
  - by apply (loop_finished_sent (probe_net w)).
  - rewrite (loop_finished_sent _ _ _ Hreach Hfin).
    destruct input as [|p0 input'].
    + destruct res; [done|discriminate Hin].
    + destruct res as [|r0 res']; [discriminate Hin|].
      by rewrite (export_results_checked w (r0 :: res')).
Qed.


(** X7: the scheduler of the pool has no influence on what main returns or
    raises, nor on the file it writes: two runs in the same world under
    different schedulers end the same way. *)
Theorem main_schedule_independent (w : world) (pick' : nat -> nat) :
  let w' := {| page_net := page_net w; probe_net := probe_net w; pick := pick';
               indexer := indexer w; now := now w |} in
  returned (main w') = returned (main w) /\ written (main w') = written (main w).
Proof.
  intros w'. unfold main, main_body. simpl.
  destruct (fetch_proxies (page_net w)) as [input|e]; [|done].
  pose proof (terminal_sequential _ _ _ (dispatch_reachable (probe_net w) (pick w) input)
                (dispatch_terminal _ _ _)) as H1.
  pose proof (terminal_sequential _ _ _ (dispatch_reachable (probe_net w) pick' input)
                (dispatch_terminal _ _ _)) as H2.
  rewrite H1 in H2. injection H2 as Hps Hr. rewrite <- Hps, <- Hr.
  destruct (raised (dispatch (probe_net w) (pick w) input)); [done|].
  change (export_results w' (proxies (dispatch (probe_net w) (pick w) input)))
    with (export_results w (proxies (dispatch (probe_net w) (pick w) input))).
  by destruct (export_results w _).
Qed.

(** X8: the file main writes is the report of the records checked one after
    the other: its rows come from the fetched records, each with the label
    of its own probe, and under a kernel that sorts the status column in
    descending order every fetched record has exactly one row. *)
Theorem report_of_sequential (w : world) (input : list Proxy) (a : artifact) :
  fetch_proxies (page_net w) = Ok input ->
  written (main w) = Some a ->
  let results := cell_result <$> (sequential (probe_net w) 0 input).1 in
  a = report w results /\
  results.*1 = input /\
  (forall i r, results !! i = Some r -> check_proxy (probe_net w i) r.1 = Ok r) /\
  (sorts_descending results.*2 (indexer w results.*2) ->
     body a ≡ₚ row_of <$> results /\ length (body a) = length input).
Proof.
  intros Hfetch Ha results. pose proof (main_after_fetch w input Hfetch) as H.
  simpl in H. fold results in H.
  destruct (raised (dispatch (probe_net w) (pick w) input)) as [e|].
  { rewrite H in Ha. discriminate Ha. }
  destruct H as (Hin & Hchk & _ & Hm). rewrite Hm in Ha.
  destruct input as [|p0 input']; [discriminate Ha|]. injection Ha as <-.
  split_and!; try done.
  intros Hix. unfold report. cbn [body]. fold (sorted_results (indexer w) results).
  pose proof (sorted_results_permutation _ _ Hix) as Hperm. split.
  - by rewrite Hperm.
  - rewrite length_fmap, Hperm, <- Hin, length_fmap. done.
Qed.

Lemma report_of_sequential_witness :
  written (main sample_world) = Some (report sample_world sorted_sample) /\
  length (body (report sample_world sorted_sample))
  = length [proxy_a; proxy_b; proxy_c].
Proof.
  split; [reflexivity|].
  destruct (report_of_sequential sample_world [proxy_a; proxy_b; proxy_c]
              (report sample_world sorted_sample)) as (_ & _ & _ & H).
  - reflexivity.
  - reflexivity.
  - apply H. apply stable_indexer_sorts.
Defined.

(** ** Every run of the dispatch ends *)

Lemma nsteps_remaining (net : nat -> network) (n : nat) (s s' : state) :
  nsteps (steps net) n s s' -> remaining s' + n <= remaining s.
Proof.
  induction 1 as [|n s1 s2 s3 [a Ha] _ IH]; [lia|].
  apply step_remaining in Ha. lia.
Qed.

(** X9: no run of the dispatch over N records has more than 3 N moves: the
    loop cannot go on for ever, whatever the scheduler does, and after 3 N
    moves nothing can move any more. *)
Theorem dispatch_run_bounded (net : nat -> network) (input : list Proxy)
    (n : nat) (s : state) :
  nsteps (steps net) n (init input) s ->
  n <= 3 * length input /\
  (n = 3 * length input -> terminal net s).
Proof.
  intros Hn%nsteps_remaining. rewrite remaining_init in Hn. split; [lia|].
  intros -> a. destruct (step net a s) as [s'|] eqn:Hstep; [|done].
  apply step_remaining in Hstep. lia.
Qed.

Lemma dispatch_run_bounded_witness :
  nsteps (steps sample_probes) 1 (init [proxy_a])
    {| fs := [Running proxy_a]; proxies := [Raw proxy_a]; loop_i := 0;
       raised := None; sent := [probe_request proxy_a] |} /\
  1 <= 3 * length [proxy_a].
Proof.
  assert (H : nsteps (steps sample_probes) 1 (init [proxy_a])
                {| fs := [Running proxy_a]; proxies := [Raw proxy_a]; loop_i := 0;
                   raised := None; sent := [probe_request proxy_a] |}).
  { eapply nsteps_l; [|apply nsteps_O]. by exists Start. }
  split; [exact H|]. apply (dispatch_run_bounded _ _ _ _ H).
Defined.

(** ** export_sorted_df on any frame *)


(** X10: on a frame without a column "status", export_sorted_df raises
    KeyError at the sort and writes nothing. *)
Theorem export_missing_status (ix : list string -> list nat) (t : struct_tm)
    (df : DataFrame) (name : string) :
  "status" ∉ columns df ->
  export_sorted_df ix t df name = Raise (OtherException "KeyError").
Proof.
  intros Hno. unfold export_sorted_df. rewrite timing_id.
  unfold export_sorted_df_body, sort_values.
  destruct (list_find (fun c => c = "status") (columns df)) as [[j c]|] eqn:E; [|done].
  apply list_find_Some in E as (Hj & -> & _).
  destruct Hno. by eapply list_elem_of_lookup_2.
Qed.

Lemma export_missing_status_witness :
  export_sorted_df stable_indexer sample_time
    {| columns := Proxy_fields; rows := [Proxy_astuple proxy_a] |} "freeproxylist"
  = Raise (OtherException "KeyError").
Proof.
  apply export_missing_status. simpl. unfold Proxy_fields.
  intros H. repeat (apply elem_of_cons in H as [H|H]; [discriminate H|]).
  by apply elem_of_nil in H.
Defined.



(** ** The file name tells the minute *)

Lemma digit_inj (d d' : nat) : d < 10 -> d' < 10 -> digit d = digit d' -> d = d'.
Proof.
  intros Hd Hd'. unfold digit. rewrite !Nat.mod_small by done. intros [= H].
  apply (f_equal nat_of_ascii) in H.
  rewrite !nat_ascii_embedding in H by lia. lia.
Qed.

Lemma string_app_cancel (s x y : string) : s +:+ x = s +:+ y -> x = y.
Proof. induction s as [|c s IH]; simpl; [done|]. intros [= H]. by apply IH. Qed.

(** X12: two exports under the same prefix get the same file name only when
    they happen in the same minute of the same day: for times in years of
    four digits, the file name determines year, month, day, hour and
    minute. *)
Theorem file_name_tells_minute (t1 t2 : struct_tm) (name : string) :
  valid_tm t1 -> valid_tm t2 ->
  name +:+ "_" +:+ datetime_string t1 +:+ ".xlsx"
  = name +:+ "_" +:+ datetime_string t2 +:+ ".xlsx" ->
  t1 = t2.
Proof.
  intros H1 H2 Heq.
  apply datetime_string_stamp in H1
    as (a1 & a2 & a3 & a4 & a5 & a6 & a7 & a8 & a9 & a10 & a11 & a12 & Ha & E1 & ?).
  apply datetime_string_stamp in H2
    as (b1 & b2 & b3 & b4 & b5 & b6 & b7 & b8 & b9 & b10 & b11 & b12 & Hb & E2 & ?).
  apply string_app_cancel in Heq.
  rewrite E1, E2 in Heq.
  repeat match goal with
         | H : Forall _ (_ :: _) |- _ => apply Forall_cons in H as [? H]
         end.
  unfold digit in Heq. simpl in Heq.
  injection Heq as h1 h2 h3 h4 h5 h6 h7 h8 h9 h10 h11 h12.
  assert (Hinj : forall d d', d < 10 -> d' < 10 ->
            ascii_of_nat (48 + d `mod` 10) = ascii_of_nat (48 + d' `mod` 10) -> d = d').
  { intros d d' ? ? Hd. apply digit_inj; [done|done|]. unfold digit. by rewrite Hd. }
  apply Hinj in h1, h2, h3, h4, h5, h6, h7, h8, h9, h10, h11, h12; try done.
  subst. destruct t1, t2; simpl in *. f_equal; lia.
Qed.

Lemma sample_time_valid : valid_tm sample_time.
Proof. unfold valid_tm, sample_time. simpl. lia. Qed.

Lemma file_name_tells_minute_witness :
  valid_tm sample_time /\ sample_time = sample_time.
Proof.
  split; [apply sample_time_valid|].
  apply (file_name_tells_minute sample_time sample_time "freeproxylist").
  - apply sample_time_valid.
  - apply sample_time_valid.
  - reflexivity.
Defined.

(** ** running_feedback *)

Lemma advance_add (n m : nat) (g : feedback) :
  advance (n + m) g = advance m (advance n g).
Proof. revert g. induction n as [|n IH]; intros g; simpl; [done|]. apply IH. Qed.

Lemma advance_S_r (n : nat) (g : feedback) :
  advance (S n) g = snd (next_feedback (advance n g)).
Proof. by rewrite <- Nat.add_1_r, advance_add. Qed.

Lemma advance_period (q : nat) : advance (4 * q) running_feedback = running_feedback.
Proof.
  induction q as [|q IH]; [done|].
  replace (4 * S q) with (4 * q + 4) by lia. by rewrite advance_add, IH.
Qed.

Lemma advance_mod (n : nat) :
  advance n running_feedback = advance (n `mod` 4) running_feedback.
Proof.
  rewrite (Nat.div_mod_eq n 4) at 1. by rewrite advance_add, advance_period.
Qed.

Lemma next_feedback_nth (n : nat) :
  glyphs !! (n `mod` 4) = Some (fst (next_feedback (advance n running_feedback))).
Proof.
  rewrite advance_mod. pose proof (Nat.mod_upper_bound n 4) as H.
  destruct (n `mod` 4) as [|[|[|[|k]]]]; try done. lia.
Qed.

(** X13: the generator never ends and cycles through the four characters
    | / - \ in this order: call number n of next (counting from 0) yields
    character n mod 4 of the string, and every fourth call brings the
    generator back to where it was. *)
Theorem running_feedback_cycles (n : nat) :
  glyphs !! (n `mod` 4) = Some (fst (next_feedback (advance n running_feedback))) /\
  fst (next_feedback (advance (n + 4) running_feedback))
  = fst (next_feedback (advance n running_feedback)) /\
  advance (n + 4) running_feedback = advance n running_feedback.
Proof.
  assert (H : advance (n + 4) running_feedback = advance n running_feedback).
  { rewrite (advance_mod (n + 4)), (advance_mod n).
    replace (n + 4) with (n + 1 * 4) by lia. by rewrite Nat.Div0.mod_add. }
  split; [apply next_feedback_nth|]. split; [by rewrite H|done].
Qed.

(** ** The console of the loop *)

Lemma ticks_S (k : nat) :
  ticks (S k) = ticks k + (if decide (k `mod` 10 = 0) then 2 else 1).
Proof.
  unfold ticks. pose proof (Nat.div_mod_eq k 10) as Hk.
  pose proof (Nat.mod_upper_bound k 10) as Hr.
  set (q := k `div` 10) in *. set (r := k `mod` 10) in *.
  assert (H1 : (S k + 9) `div` 10 = S q).
  { symmetry. apply (Nat.div_unique _ _ _ r); lia. }
  destruct (decide (r = 0)) as [Hr0|Hr0].
  - assert (H2 : (k + 9) `div` 10 = q).
    { symmetry. apply (Nat.div_unique _ _ _ 9); lia. }
    lia.
  - assert (H2 : (k + 9) `div` 10 = S q).
    { symmetry. apply (Nat.div_unique _ _ _ (r - 1)); lia. }
    lia.
Qed.

Lemma next_feedback_advance (m : nat) :
  next_feedback (advance m running_feedback)
  = (default "|"%char (glyphs !! (m `mod` 4)), advance (S m) running_feedback).
Proof.
  rewrite advance_S_r, next_feedback_nth. simpl.
  by destruct (next_feedback (advance m running_feedback)).
Qed.

Lemma seq_ticks (n k : nat) : seq 0 (n + k) = seq 0 n ++ seq n k.
Proof. by rewrite seq_app. Qed.

(** X14: after n iterations the loop has printed n + ceil(n / 10) lines:
    one per iteration and a second one in the iterations 0, 10, 20, ...;
    every line is "\rChecking proxies... " followed by the next character of
    the generator, so the characters go round | / - \ line by line. *)
Theorem loop_console_lines (n : nat) :
  loop_console n =
  ((fun m => checking_line (default "|"%char (glyphs !! (m `mod` 4))))
     <$> seq 0 (ticks n),
   advance (ticks n) running_feedback).
Proof.
  induction n as [|k IH]; [done|].
  simpl loop_console. rewrite IH, ticks_S. unfold iteration_prints.
  rewrite next_feedback_advance.
  destruct (decide (k `mod` 10 = 0)) as [Hk|Hk].
  - rewrite next_feedback_advance.
    rewrite seq_ticks, fmap_app. simpl seq. rewrite !fmap_cons.
    by replace (ticks k + 2) with (S (S (ticks k))) by lia.
  - rewrite seq_ticks, fmap_app. simpl seq. rewrite !fmap_cons.
    by replace (ticks k + 1) with (S (ticks k)) by lia.
Qed.

(** The first twelve iterations print fourteen lines. *)
Example loop_console_twelve : length (loop_console 12).1 = 14.
Proof. reflexivity. Qed.
